(** * Context Weaver: the highlight core of the document viewer

    A shallow embedding of [DocumentViewer.tsx]: the offset mapper
    [renderDocumentWithHighlights], the selection translator
    [handleTextSelection] and the colour table [getHighlightColor],
    together with the JavaScript built-ins they call
    ([String.prototype.substring], [String.prototype.trim],
    [Array.prototype.sort], property lookup on an object literal and the
    stringification of a DOM [Range]).

    Conventions.
    - A JavaScript string is a [string]; one [ascii] stands for one UTF-16
      code unit, so [String.length] is the JavaScript [length].
    - [position_start], [position_end] and the cursor [lastIndex] are
      JavaScript numbers holding SQL [integer]s: they are modelled in [Z]. *)

From Stdlib Require Import ZArith Lia Ascii String.
From stdpp Require Import base list strings gmap sorting.

Local Open Scope Z_scope.

(** ** Strings *)

Module Str.

Fixpoint take (n : nat) (s : string) : string :=
  match n, s with
  | S n', String c s' => String c (take n' s')
  | _, _ => EmptyString
  end.

Fixpoint drop (n : nat) (s : string) : string :=
  match n, s with
  | S n', String _ s' => drop n' s'
  | _, _ => s
  end.

(** The code units at the indices [from <= i < to]. *)
Definition slice (from to : nat) (s : string) : string :=
  take (to - from) (drop from s).

(** Concatenation of a list of strings, in order. *)
Definition join (l : list string) : string :=
  foldr String.append EmptyString l.

End Str.

(** ** [String.prototype.substring] and [String.prototype.trim] *)

(** [min(max(x, 0), len)], the clamping of a relative index (ECMAScript,
    String.prototype.substring, steps 6 and 7). *)
Definition clamp (len x : Z) : Z := Z.min (Z.max x 0) len.

(** The pair [(from, to)] of String.prototype.substring: both arguments
    are clamped to [0, len] and swapped when they come in the wrong
    order. *)
Definition substring_bounds (len intStart intEnd : Z) : Z * Z :=
  let finalStart := clamp len intStart in
  let finalEnd := clamp len intEnd in
  (Z.min finalStart finalEnd, Z.max finalStart finalEnd).

Definition slice_bounds (s : string) (b : Z * Z) : string :=
  Str.slice (Z.to_nat b.1) (Z.to_nat b.2) s.

(** [s.substring(start, end)] *)
Definition substring (s : string) (intStart intEnd : Z) : string :=
  slice_bounds s
    (substring_bounds (Z.of_nat (String.length s)) intStart intEnd).

(** [s.substring(start)]: a missing [end] stands for the length. *)
Definition substring_from (s : string) (intStart : Z) : string :=
  substring s intStart (Z.of_nat (String.length s)).

(** WhiteSpace and LineTerminator code units (ECMAScript, TrimString)
    among the code units an [ascii] holds: TAB, LF, VT, FF, CR, SP and
    NBSP. *)
Definition is_white_space (c : ascii) : bool :=
  bool_decide (nat_of_ascii c ∈ [9; 10; 11; 12; 13; 32; 160]%nat).

Fixpoint trimStart (s : string) : string :=
  match s with
  | String c s' => if is_white_space c then trimStart s' else s
  | EmptyString => EmptyString
  end.

Fixpoint trimEnd (s : string) : string :=
  match s with
  | String c s' =>
      match trimEnd s' with
      | EmptyString => if is_white_space c then EmptyString else String c EmptyString
      | t => String c t
      end
  | EmptyString => EmptyString
  end.

(** [s.trim()] *)
Definition trim (s : string) : string := trimEnd (trimStart s).

Fixpoint all_white_space (s : string) : bool :=
  match s with
  | String c s' => is_white_space c && all_white_space s'
  | EmptyString => true
  end.

(** ** Data model ([database.types.ts], the [annotations] and [documents]
    rows) *)

Module Document.
Record t := mk {
  id : string;
  title : string;
  content : string;
  tags : list string;
}.
End Document.

Module Annotation.
(** [color] is a nullable [text] column ([color text DEFAULT 'yellow']):
    [None] is SQL NULL. *)
Record t := mk {
  id : string;
  document_id : string;
  content : string;
  highlighted_text : string;
  position_start : Z;
  position_end : Z;
  color : option string;
}.
End Annotation.

(** An element of the local array [segments]. *)
Record Segment := mkSegment {
  text : string;
  highlighted : bool;
  annotation : option Annotation.t;
}.

Definition plain (s : string) : Segment :=
  {| text := s; highlighted := false; annotation := None |}.

Definition mark (s : string) (ann : Annotation.t) : Segment :=
  {| text := s; highlighted := true; annotation := Some ann |}.

(** ** [Array.prototype.sort]

    ECMAScript requires the sort to be stable and, for a consistent
    comparator, to leave [comparefn a b <= 0] for [a] before [b]. These two
    facts determine the result ([stable_sorted_unique] below), so any stable
    algorithm is a model; this one inserts from the right, an element going
    before the first one it does not compare greater than. *)

Section Array_sort.
Context {A : Type} (comparefn : A -> A -> Z).

Fixpoint sort_insert (x : A) (l : list A) : list A :=
  match l with
  | [] => [x]
  | y :: l' =>
      if bool_decide (0 < comparefn x y) then y :: sort_insert x l'
      else x :: y :: l'
  end.

Definition Array_sort (l : list A) : list A := foldr sort_insert [] l.

End Array_sort.

(** ** The offset mapper, [renderDocumentWithHighlights] *)

(** [(a, b) => a.position_start - b.position_start] *)
Definition by_position_start (a b : Annotation.t) : Z :=
  Annotation.position_start a - Annotation.position_start b.

(** The body of [highlights.forEach(ann => ...)], on the pair of the array
    [segments] and the cursor [lastIndex]; [push] appends. *)
Definition forEach_body (content : string)
    (st : list Segment * Z) (ann : Annotation.t) : list Segment * Z :=
  let '(segments, lastIndex) := st in
  let segments :=
    if bool_decide (lastIndex < Annotation.position_start ann)
    then segments ++
         [plain (substring content lastIndex (Annotation.position_start ann))]
    else segments in
  let segments :=
    segments ++
    [mark (substring content (Annotation.position_start ann)
                             (Annotation.position_end ann)) ann] in
  (segments, Annotation.position_end ann).

(** What the function returns: the bare string [doc.content], or the
    fragment that maps every segment to a [<mark>] or a [<span>]. *)
Inductive Rendered :=
  | Text (s : string)
  | Fragment (segments : list Segment).

(** [renderDocumentWithHighlights] on the document's text and its
    annotation array [docAnnotations]. *)
Definition render (content : string)
    (docAnnotations : list Annotation.t) : Rendered :=
  if bool_decide (length docAnnotations = 0%nat) then Text content
  else
    let highlights := Array_sort by_position_start docAnnotations in
    let '(segments, lastIndex) :=
      foldl (forEach_body content) ([], 0) highlights in
    let segments :=
      if bool_decide (lastIndex < Z.of_nat (String.length content))
      then segments ++ [plain (substring_from content lastIndex)]
      else segments in
    Fragment segments.

(** The segments a rendering shows: the bare string is one plain run of
    text. *)
Definition segments_of (r : Rendered) : list Segment :=
  match r with
  | Text s => [plain s]
  | Fragment segments => segments
  end.

(** The text the container shows, in document order. *)
Definition rendered_text (r : Rendered) : string :=
  Str.join (text <$> segments_of r).

(** The walk as a recursion over the sorted list: the segments that
    [forEach] pushes from the cursor [lastIndex] on, and the final cursor. *)
Fixpoint walk (content : string) (lastIndex : Z) (highlights : list Annotation.t)
    : list Segment * Z :=
  match highlights with
  | [] => ([], lastIndex)
  | ann :: rest =>
      let gap :=
        if bool_decide (lastIndex < Annotation.position_start ann)
        then [plain (substring content lastIndex (Annotation.position_start ann))]
        else [] in
      let here :=
        mark (substring content (Annotation.position_start ann)
                                (Annotation.position_end ann)) ann in
      let '(segments, final) := walk content (Annotation.position_end ann) rest in
      (gap ++ here :: segments, final)
  end.

Definition trailing (content : string) (lastIndex : Z) : list Segment :=
  if bool_decide (lastIndex < Z.of_nat (String.length content))
  then [plain (substring_from content lastIndex)]
  else [].

(** *** Where each segment lies in the document

    The same walk, keeping for every pushed segment the pair [(from, to)]
    that its [substring] call slices, instead of the sliced text. *)

Fixpoint walk_bounds (len lastIndex : Z) (highlights : list Annotation.t)
    : list (Z * Z) * Z :=
  match highlights with
  | [] => ([], lastIndex)
  | ann :: rest =>
      let gap :=
        if bool_decide (lastIndex < Annotation.position_start ann)
        then [substring_bounds len lastIndex (Annotation.position_start ann)]
        else [] in
      let here :=
        substring_bounds len (Annotation.position_start ann)
                             (Annotation.position_end ann) in
      let '(bounds, final) := walk_bounds len (Annotation.position_end ann) rest in
      (gap ++ here :: bounds, final)
  end.

Definition render_bounds (content : string)
    (docAnnotations : list Annotation.t) : list (Z * Z) :=
  let len := Z.of_nat (String.length content) in
  if bool_decide (length docAnnotations = 0%nat) then [(0, len)]
  else
    let '(bounds, lastIndex) :=
      walk_bounds len 0 (Array_sort by_position_start docAnnotations) in
    bounds ++
    (if bool_decide (lastIndex < len)
     then [substring_bounds len lastIndex len] else []).

(** ** The annotation sets of the data model *)

Definition starts_before (a b : Annotation.t) : Prop :=
  Annotation.position_start a <= Annotation.position_start b.

(** [a] ends where [b] begins, or before. *)
Definition precedes (a b : Annotation.t) : Prop :=
  Annotation.position_end a <= Annotation.position_start b.

(** [0 <= position_start <= position_end <= length(content)] *)
Definition in_range (content : string) (a : Annotation.t) : Prop :=
  0 <= Annotation.position_start a
  /\ Annotation.position_start a <= Annotation.position_end a
  /\ Annotation.position_end a <= Z.of_nat (String.length content).

Definition ordered_range (a : Annotation.t) : Prop :=
  Annotation.position_start a <= Annotation.position_end a.

(** A valid, non-overlapping annotation set: every range lies in the
    document, and in the order of the sort no annotation begins before an
    earlier one has ended (the test [position_start < cursor] never
    succeeds). *)
Definition non_overlapping (content : string)
    (docAnnotations : list Annotation.t) : Prop :=
  Forall (in_range content) docAnnotations
  /\ StronglySorted precedes (Array_sort by_position_start docAnnotations).

(** Two ranges that do not meet: one ends where the other begins, or
    before. *)
Definition apart (a b : Annotation.t) : Prop :=
  precedes a b \/ precedes b a.

(** Non-empty ranges within the document, any two of them apart, in
    whatever order they are stored. *)
Definition pairwise_disjoint (content : string)
    (docAnnotations : list Annotation.t) : Prop :=
  Forall (in_range content) docAnnotations
  /\ Forall (λ a, Annotation.position_start a < Annotation.position_end a)
            docAnnotations
  /\ StronglySorted apart docAnnotations.

(** ** The selection translator, [handleTextSelection]

    The container [doc-<id>] is seen as the list of its text nodes in tree
    order: the bare string is one text node, and every [<mark>] or [<span>]
    of the fragment holds one. A boundary point is the index of a text node
    and an offset into it. *)

Definition text_nodes (r : Rendered) : list string :=
  text <$> segments_of r.

Record Range := mkRange {
  startContainer : nat;
  startOffset : nat;
  endContainer : nat;
  endOffset : nat;
}.

Definition node_data (nodes : list string) (i : nat) : string :=
  default EmptyString (nodes !! i).

(** Stringification of a range (DOM, the stringifier of [Range]): within
    one text node the data between the two offsets; otherwise the rest of
    the start node, the text nodes in between, and the beginning of the end
    node. *)
Definition Range_toString (nodes : list string) (r : Range) : string :=
  if bool_decide (startContainer r = endContainer r)
  then Str.slice (startOffset r) (endOffset r) (node_data nodes (startContainer r))
  else
    Str.drop (startOffset r) (node_data nodes (startContainer r))
    +:+ Str.join (take (endContainer r - startContainer r - 1)
                       (drop (S (startContainer r)) nodes))
    +:+ Str.take (endOffset r) (node_data nodes (endContainer r)).

(** [preCaretRange]: [selectNodeContents(container)] followed by
    [setEnd(range.startContainer, range.startOffset)], stringified: the
    text nodes before the start node and the start node up to the offset. *)
Definition preCaretRange_toString (nodes : list string) (r : Range) : string :=
  Str.join (take (startContainer r) nodes)
  +:+ Str.take (startOffset r) (node_data nodes (startContainer r)).

(** A collapsed range: its two boundary points are the same. *)
Definition collapsed (r : Range) : Prop :=
  startContainer r = endContainer r /\ startOffset r = endOffset r.

(** What the handler reads from [window.getSelection()]. *)
Record Selection := mkSelection {
  toString : string;
  getRangeAt0 : Range;
}.

(** The selection object while the range [r] of the container is
    selected: its text is that of its one range (the container holds
    inline text only). *)
Definition selection_on (nodes : list string) (r : Range) : Selection :=
  {| toString := Range_toString nodes r; getRangeAt0 := r |}.

Module Selected.
(** The state [selectedText]; [end_] is its field [end]. *)
Record t := mk {
  text : string;
  docId : string;
  start : Z;
  end_ : Z;
}.
End Selected.

(** [handleTextSelection(docId)], given the two things it reads from the
    page: [window.getSelection()] and
    [document.getElementById(`doc-${docId}`)], each possibly null. The
    result is the value passed to [setSelectedText]; [None] says that the
    handler returned without touching the state. *)
Definition handleTextSelection (docId : string)
    (getSelection : option Selection) (getElementById : option (list string))
    : option Selected.t :=
  match getSelection with
  | None => None
  | Some selection =>
      if bool_decide (trim (toString selection) = EmptyString) then None
      else
        let range := getRangeAt0 selection in
        let text := toString selection in
        match getElementById with
        | Some container =>
            let start :=
              Z.of_nat (String.length (preCaretRange_toString container range)) in
            let end_ := start + Z.of_nat (String.length text) in
            Some (Selected.mk text docId start end_)
        | None => None
        end
  end.

(** The number of code units of the container that come before a boundary
    point. *)
Definition flat_offset (nodes : list string) (i o : nat) : nat :=
  (sum_list (String.length <$> take i nodes) + o)%nat.

Definition valid_point (nodes : list string) (i o : nat) : Prop :=
  (i < length nodes)%nat /\ (o <= String.length (node_data nodes i))%nat.

(** The range [r] selects the code units [start <= i < end_] of the text
    the container shows. *)
Definition selects (nodes : list string) (r : Range) (start end_ : Z) : Prop :=
  valid_point nodes (startContainer r) (startOffset r)
  /\ valid_point nodes (endContainer r) (endOffset r)
  /\ Z.of_nat (flat_offset nodes (startContainer r) (startOffset r)) = start
  /\ Z.of_nat (flat_offset nodes (endContainer r) (endOffset r)) = end_.

(** The boundary point at which a code unit position falls: the first text
    node that reaches it. *)
Fixpoint locate (nodes : list string) (p : nat) : nat * nat :=
  match nodes with
  | [] => (0, 0)%nat
  | s :: rest =>
      if bool_decide (p <= String.length s)%nat then (0%nat, p)
      else
        let '(i, o) := locate rest (p - String.length s) in (S i, o)
  end.

Definition range_of (nodes : list string) (start end_ : Z) : Range :=
  let s := locate nodes (Z.to_nat start) in
  let e := locate nodes (Z.to_nat end_) in
  mkRange s.1 s.2 e.1 e.2.

(** ** The colour table, [getHighlightColor] *)

(** The values a property read on the object literal [colors] can give: a
    string of the table, [undefined], or a member that the literal inherits
    from [Object.prototype] (a function, or for [__proto__] the prototype
    itself), named by its key. *)
Inductive JSValue :=
  | JSUndefined
  | JSString (s : string)
  | JSInherited (key : string).

(** The own properties of the literal. *)
Definition colors : gmap string string :=
  <["yellow" := "#fef08a"]> (<["green" := "#bbf7d0"]> (<["blue" := "#bfdbfe"]>
  (<["pink" := "#fbcfe8"]> (<["purple" := "#e9d5ff"]> ∅)))).

(** The property keys of [Object.prototype] (ECMAScript, Properties of the
    Object Prototype Object, and Annex B). *)
Definition Object_prototype : list string :=
  ["constructor"; "hasOwnProperty"; "isPrototypeOf"; "propertyIsEnumerable";
   "toLocaleString"; "toString"; "valueOf"; "__proto__";
   "__defineGetter__"; "__defineSetter__";
   "__lookupGetter__"; "__lookupSetter__"].

(** [colors[key]]: an own property, else one found on the prototype. *)
Definition Get (o : gmap string string) (key : string) : JSValue :=
  match o !! key with
  | Some v => JSString v
  | None =>
      if bool_decide (key ∈ Object_prototype) then JSInherited key
      else JSUndefined
  end.

Definition ToBoolean (v : JSValue) : bool :=
  match v with
  | JSUndefined => false
  | JSString s => negb (bool_decide (s = EmptyString))
  | JSInherited _ => true
  end.

(** [colors[color] || colors.yellow] *)
Definition getHighlightColor (color : string) : JSValue :=
  let v := Get colors color in
  if ToBoolean v then v else Get colors "yellow".

(** [segment.annotation?.color || 'yellow'], the argument at the call. *)
Definition color_or_yellow (a : option Annotation.t) : string :=
  match a with
  | Some ann =>
      match Annotation.color ann with
      | Some c => if bool_decide (c = EmptyString) then "yellow" else c
      | None => "yellow"
      end
  | None => "yellow"
  end.

Definition backgroundColor (segment : Segment) : JSValue :=
  getHighlightColor (color_or_yellow (annotation segment)).

(** The highlighted segment that the walk pushes for an annotation. *)
Definition highlight_of (content : string) (ann : Annotation.t) : Segment :=
  mark (substring content (Annotation.position_start ann)
                          (Annotation.position_end ann)) ann.

(** The annotations of the segments that carry one, in the order of the
    segments. *)
Definition annotations_of (segments : list Segment) : list Annotation.t :=
  omap annotation segments.

(** ** Sample data *)

Definition highlight (s e : Z) (c : string) : Annotation.t :=
  Annotation.mk "" "" "" "" s e (Some c).

Definition alphabet20 : string := "abcdefghijklmnopqrst".

(** ** The rest of the viewer ([DocumentViewer.tsx]) *)

(** The members of [Object.prototype] that are functions of no declared
    parameter: their [length] is 0. The other members are functions with
    a [length] of 1 or 2, and [__proto__] reads as the prototype itself,
    which has no [length]. *)
Definition Object_prototype_nullary : list string :=
  ["toLocaleString"; "toString"; "valueOf"].

(** [renderDocumentWithHighlights(doc)] on the component state
    [annotations : Record<string, Annotation[]>], seen as the map of its own
    properties, with the state it leaves behind; [None] is a TypeError.
    [annotations[doc.id] || []] is the own array when there is one. When
    [doc.id] is no own property but a key of [Object.prototype] it is the
    inherited member, which is truthy: a member whose [length] is 0 takes
    the first branch, and any other has no [sort] to call. [sort] works in
    place: the array held in the state is left sorted. *)
Definition renderDocumentWithHighlights
    (annotations : gmap string (list Annotation.t)) (doc : Document.t)
    : option (Rendered * gmap string (list Annotation.t)) :=
  match annotations !! Document.id doc with
  | Some docAnnotations =>
      Some (render (Document.content doc) docAnnotations,
            if bool_decide (length docAnnotations = 0%nat) then annotations
            else <[Document.id doc := Array_sort by_position_start docAnnotations]>
                   annotations)
  | None =>
      if bool_decide (Document.id doc ∈ Object_prototype) then
        if bool_decide (Document.id doc ∈ Object_prototype_nullary)
        then Some (Text (Document.content doc), annotations)
        else None
      else Some (render (Document.content doc) [], annotations)
  end.

(** The callback of [data.reduce] in [loadAnnotations], on the object
    [acc] seen as the map of its own properties. A [document_id] that is
    no own property but a key of [Object.prototype] reads as the inherited
    member: it is truthy, so no array is put in its place, and it has no
    [push], so the call throws a TypeError, here [None]. *)
Definition reduce_body (acc : gmap string (list Annotation.t))
    (ann : Annotation.t) : option (gmap string (list Annotation.t)) :=
  let key := Annotation.document_id ann in
  match acc !! key with
  | Some array => Some (<[key := array ++ [ann]]> acc)
  | None =>
      if bool_decide (key ∈ Object_prototype) then None
      else Some (<[key := [ann]]> acc)
  end.

Fixpoint reduce_from (acc : gmap string (list Annotation.t))
    (data : list Annotation.t) : option (gmap string (list Annotation.t)) :=
  match data with
  | [] => Some acc
  | ann :: rest =>
      match reduce_body acc ann with
      | Some acc' => reduce_from acc' rest
      | None => None
      end
  end.

(** [data.reduce(..., {})] *)
Definition group_by_document (data : list Annotation.t)
    : option (gmap string (list Annotation.t)) :=
  reduce_from ∅ data.

(** [loadAnnotations], as the new value of the state [annotations]: it
    is left as it was without a user, when the query fails ([response]
    is [None]), and when the grouping throws. *)
Definition loadAnnotations (user : option string)
    (response : option (list Annotation.t))
    (annotations : gmap string (list Annotation.t))
    : gmap string (list Annotation.t) :=
  match user, response with
  | Some _, Some data => default annotations (group_by_document data)
  | _, _ => annotations
  end.

(** The table [colors] of [AnnotationForm]: the names the form can store
    and the swatch it shows for each. *)
Definition AnnotationForm_colors : list (string * string) :=
  [("yellow", "#fef08a"); ("green", "#bbf7d0"); ("blue", "#bfdbfe");
   ("pink", "#fbcfe8"); ("purple", "#e9d5ff")].

(** The row that [handleSubmit] of [AnnotationForm] inserts for the state
    [selectedText], the note and the colour of the form; [id] is the key
    the table gives it. Without a user nothing is inserted. *)
Definition AnnotationForm_handleSubmit (user : option string) (id : string)
    (selectedText : Selected.t) (note color : string) : option Annotation.t :=
  match user with
  | None => None
  | Some _ =>
      Some (Annotation.mk id (Selected.docId selectedText) note
              (Selected.text selectedText)
              (Selected.start selectedText) (Selected.end_ selectedText)
              (Some color))
  end.

(** For every code unit of the rendered text, in order, whether the
    segment that holds it is highlighted. *)
Definition highlight_mask (segments : list Segment) : list bool :=
  segments ≫= λ seg, replicate (String.length (text seg)) (highlighted seg).

(** Some annotation's range holds the position [p]. *)
Definition annotated (docAnnotations : list Annotation.t) (p : Z) : Prop :=
  Exists (λ a, Annotation.position_start a <= p < Annotation.position_end a)
         docAnnotations.

(** ** The viewer selector ([ViewerSelector.tsx]) *)

(** [toggleDocument]: [find] gives a document, which is truthy, or
    [undefined]. *)
Definition toggleDocument (selectedDocs : list Document.t) (doc : Document.t)
    : list Document.t :=
  if bool_decide (Exists (λ d, Document.id d = Document.id doc) selectedDocs)
  then filter (λ d, Document.id d ≠ Document.id doc) selectedDocs
  else if bool_decide (length selectedDocs < 3)%nat
       then selectedDocs ++ [doc]
       else selectedDocs.

(** What the user can do in the selector. With a non-empty selection the
    component returns the viewer and nothing else, whose only way back is
    [onClose]; the grid with one button per document is shown for an empty
    selection only. *)
Inductive SelectorEvent :=
  | ClickDocument (doc : Document.t)
  | CloseViewer.

Definition selector_step (selectedDocs : list Document.t)
    (e : SelectorEvent) : option (list Document.t) :=
  match e with
  | ClickDocument doc =>
      if bool_decide (0 < length selectedDocs)%nat then None
      else
        let isSelected :=
          bool_decide (Exists (λ d, Document.id d = Document.id doc) selectedDocs) in
        let canSelect := bool_decide (length selectedDocs < 3)%nat || isSelected in
        if canSelect then Some (toggleDocument selectedDocs doc)
        else Some selectedDocs
  | CloseViewer =>
      if bool_decide (0 < length selectedDocs)%nat then Some [] else None
  end.

(** The selection after a sequence of events, from the selection
    [selectedDocs]; [None] when one of them is not on offer. *)
Fixpoint selector_run (selectedDocs : list Document.t)
    (es : list SelectorEvent) : option (list Document.t) :=
  match es with
  | [] => Some selectedDocs
  | e :: es' =>
      match selector_step selectedDocs e with
      | Some selectedDocs' => selector_run selectedDocs' es'
      | None => None
      end
  end.

(** ** The document list ([DocumentsList.tsx]) *)

(** [tags.add(tag)] on a [Set], kept in the order of first insertion. *)
Definition Set_add (tags : list string) (tag : string) : list string :=
  if bool_decide (tag ∈ tags) then tags else tags ++ [tag].

(** The comparison of [sort] without a comparator: by code units. *)
Definition default_compare (x y : string) : Z :=
  match String.compare x y with
  | Lt => -1
  | Eq => 0
  | Gt => 1
  end.

(** [allTags]: every tag of every document, once, sorted. *)
Definition allTags (documents : list Document.t) : list string :=
  Array_sort default_compare
    (foldl (λ tags doc, foldl Set_add tags (Document.tags doc)) [] documents).

(** [s.includes(searchString)]: [searchString] begins at some position of
    [s]. *)
Fixpoint includes (s searchString : string) : bool :=
  String.prefix searchString s
  || match s with
     | String _ s' => includes s' searchString
     | EmptyString => false
     end.

Definition matchesTags (selectedTags : list string) (doc : Document.t) : bool :=
  bool_decide (length selectedTags = 0%nat)
  || existsb (λ tag, bool_decide (tag ∈ Document.tags doc)) selectedTags.

(** [filteredDocuments]. The built-in [String.prototype.toLowerCase] (the
    case mapping of Unicode, which looks at the neighbours of a letter and
    can change the length of a string) is taken as it is: a function from
    strings to strings, the parameter [toLowerCase]. *)
Section filteredDocuments.
Variable toLowerCase : string -> string.

Definition matchesSearch (searchQuery : string) (doc : Document.t) : bool :=
  includes (toLowerCase (Document.title doc)) (toLowerCase searchQuery)
  || includes (toLowerCase (Document.content doc)) (toLowerCase searchQuery).

Definition filteredDocuments (documents : list Document.t)
    (searchQuery : string) (selectedTags : list string) : list Document.t :=
  filter (λ doc, matchesSearch searchQuery doc && matchesTags selectedTags doc = true)
         documents.

End filteredDocuments.

Definition toggleTag (prev : list string) (tag : string) : list string :=
  if bool_decide (tag ∈ prev) then filter (λ t, t ≠ tag) prev
  else prev ++ [tag].

(** [s.split(',')] *)
Fixpoint split_comma (s : string) : list string :=
  match s with
  | EmptyString => [EmptyString]
  | String c s' =>
      if bool_decide (c = ","%char) then EmptyString :: split_comma s'
      else
        match split_comma s' with
        | piece :: pieces => String c piece :: pieces
        | [] => [String c EmptyString]
        end
  end.

(** [tags.split(',').map(t => t.trim()).filter(Boolean)], the tags that
    [handleSubmit] of the upload form inserts. *)
Definition parse_tags (tags : string) : list string :=
  filter (λ t, t ≠ EmptyString) (trim <$> split_comma tags).

(** [array.join(separator)] on strings, as in [doc.tags.join(', ')]. *)
Fixpoint Array_join (separator : string) (l : list string) : string :=
  match l with
  | [] => EmptyString
  | [x] => x
  | x :: rest => x +:+ separator +:+ Array_join separator rest
  end.

(** The code unit [c] occurs in [s]. *)
Definition has_unit (c : ascii) (s : string) : Prop :=
  In c (list_ascii_of_string s).

(** The suffix that [/\.[^/.]+$/] accepts after its dot: one code unit or
    more, none of them a slash or a dot. *)
Fixpoint extension_tail (s : string) : bool :=
  match s with
  | EmptyString => false
  | String c s' =>
      bool_decide (c ≠ "/"%char /\ c ≠ "."%char)
      && match s' with
         | EmptyString => true
         | _ => extension_tail s'
         end
  end.

(** [name.replace(/\.[^/.]+$/, '')]: the text is cut at the first
    position, from the left, where the pattern matches. *)
Fixpoint strip_extension (name : string) : string :=
  match name with
  | EmptyString => EmptyString
  | String c s' =>
      if bool_decide (c = "."%char) && extension_tail s' then EmptyString
      else String c (strip_extension s')
  end.

(** ** The connections view ([ConnectionsView.tsx]) *)

(** [documents.find(d => d.id === id)?.title || 'Unknown Document'] *)
Definition getDocumentTitle (documents : list Document.t) (id : string) : string :=
  match list_find (λ d, Document.id d = id) documents with
  | Some (_, d) =>
      if bool_decide (Document.title d = EmptyString) then "Unknown Document"
      else Document.title d
  | None => "Unknown Document"
  end.

Definition connection_colors : gmap string string :=
  <["related" := "bg-blue-100 text-blue-700"]>
  (<["supports" := "bg-green-100 text-green-700"]>
  (<["contradicts" := "bg-red-100 text-red-700"]>
  (<["expands" := "bg-purple-100 text-purple-700"]>
  (<["cites" := "bg-orange-100 text-orange-700"]> ∅)))).

(** [colors[type] || colors.related] *)
Definition getConnectionTypeColor (type : string) : JSValue :=
  let v := Get connection_colors type in
  if ToBoolean v then v else Get connection_colors "related".

(** The values of [connectionTypes] in the form that creates a
    connection. *)
Definition connectionTypes : list string :=
  ["related"; "supports"; "contradicts"; "expands"; "cites"].

(** * Properties *)

(** ** Strings *)

Module StrFacts.
Import Str.

Lemma app_nil_l s : "" +:+ s = s.
Proof. reflexivity. Qed.

Lemma app_cons c s t : String c s +:+ t = String c (s +:+ t).
Proof. reflexivity. Qed.

Ltac ssimpl := simpl in *; rewrite ?app_nil_l, ?app_cons.

Lemma app_nil_r s : s +:+ "" = s.
Proof. induction s as [|c s IH]; ssimpl; [done | by rewrite IH]. Qed.

Lemma app_assoc s t u : (s +:+ t) +:+ u = s +:+ t +:+ u.
Proof. induction s as [|c s IH]; ssimpl; [done | by rewrite IH]. Qed.

Lemma length_app s t :
  String.length (s +:+ t) = (String.length s + String.length t)%nat.
Proof. induction s as [|c s IH]; ssimpl; [done | by rewrite IH]. Qed.

Lemma take_0 s : take 0 s = "".
Proof. by destruct s. Qed.

Lemma drop_0 s : drop 0 s = s.
Proof. by destruct s. Qed.

Lemma take_drop n s : take n s +:+ drop n s = s.
Proof.
  revert s; induction n as [|n IH]; intros [|c s]; ssimpl; try done.
  by rewrite IH.
Qed.

Lemma take_all n s : (String.length s <= n)%nat -> take n s = s.
Proof.
  revert s; induction n as [|n IH]; intros [|c s]; ssimpl; try done.
  - lia.
  - intros H. rewrite IH; [done | lia].
Qed.

Lemma length_take n s :
  String.length (take n s) = (n `min` String.length s)%nat.
Proof.
  revert s; induction n as [|n IH]; intros [|c s]; ssimpl; try done.
  by rewrite IH.
Qed.

Lemma length_drop n s :
  String.length (drop n s) = (String.length s - n)%nat.
Proof.
  revert s; induction n as [|n IH]; intros [|c s]; ssimpl; try done.
Qed.

Lemma length_slice from to s :
  String.length (slice from to s)
  = ((to - from) `min` (String.length s - from))%nat.
Proof. unfold slice. by rewrite length_take, length_drop. Qed.

Lemma slice_empty from to s : (to <= from)%nat -> slice from to s = "".
Proof.
  intros H. unfold slice. replace (to - from)%nat with 0%nat by lia.
  apply take_0.
Qed.

Lemma slice_0 to s : slice 0 to s = take to s.
Proof. unfold slice. by rewrite drop_0, Nat.sub_0_r. Qed.

Lemma slice_to_end from to s :
  (String.length s <= to)%nat -> slice from to s = drop from s.
Proof.
  intros H. unfold slice. apply take_all. rewrite length_drop. lia.
Qed.

(** Two adjacent slices make one. *)
Lemma take_slice a b s :
  (a <= b)%nat -> take a s +:+ slice a b s = take b s.
Proof.
  unfold slice. revert b s; induction a as [|a IH]; intros b s Hab.
  - by rewrite take_0, drop_0, Nat.sub_0_r.
  - destruct b as [|b]; [lia|]. destruct s as [|c s]; ssimpl.
    + by destruct (b - a)%nat.
    + rewrite IH; [done | lia].
Qed.

Lemma drop_app_ge n s t :
  (String.length s <= n)%nat ->
  drop n (s +:+ t) = drop (n - String.length s) t.
Proof.
  revert n; induction s as [|c s IH]; intros n H; ssimpl.
  - by rewrite Nat.sub_0_r.
  - destruct n as [|n]; [lia|]. ssimpl. apply IH. lia.
Qed.

Lemma drop_app_le n s t :
  (n <= String.length s)%nat -> drop n (s +:+ t) = drop n s +:+ t.
Proof.
  revert n; induction s as [|c s IH]; intros n H; ssimpl.
  - replace n with 0%nat by lia. by rewrite !drop_0.
  - destruct n as [|n]; [done|]. ssimpl. apply IH. lia.
Qed.

Lemma take_app_le n s t :
  (n <= String.length s)%nat -> take n (s +:+ t) = take n s.
Proof.
  revert n; induction s as [|c s IH]; intros n H; ssimpl.
  - replace n with 0%nat by lia. by rewrite !take_0.
  - destruct n as [|n]; [done|]. ssimpl. rewrite IH; [done | lia].
Qed.

Lemma take_app_ge n s t :
  (String.length s <= n)%nat ->
  take n (s +:+ t) = s +:+ take (n - String.length s) t.
Proof.
  revert n; induction s as [|c s IH]; intros n H; ssimpl.
  - by rewrite Nat.sub_0_r.
  - destruct n as [|n]; [lia|]. ssimpl. rewrite IH; [done | lia].
Qed.

Lemma join_cons s l : join (s :: l) = s +:+ join l.
Proof. reflexivity. Qed.

Lemma join_app l1 l2 : join (l1 ++ l2) = join l1 +:+ join l2.
Proof.
  induction l1 as [|s l1 IH]; ssimpl; [done|].
  by rewrite IH, app_assoc.
Qed.

End StrFacts.

(** ** [substring] *)

Lemma clamp_bounds len x : 0 <= len -> 0 <= clamp len x <= len.
Proof. unfold clamp. lia. Qed.

Lemma clamp_mono len x y : x <= y -> clamp len x <= clamp len y.
Proof. unfold clamp. lia. Qed.

Lemma clamp_id len x : 0 <= x <= len -> clamp len x = x.
Proof. unfold clamp. lia. Qed.

Lemma clamp_clamp len x : 0 <= len -> clamp len (clamp len x) = clamp len x.
Proof. unfold clamp. lia. Qed.

Lemma substring_bounds_ordered len a b :
  a <= b -> substring_bounds len a b = (clamp len a, clamp len b).
Proof.
  intros H. unfold substring_bounds. pose proof (clamp_mono len a b H).
  f_equal; lia.
Qed.

Lemma substring_bounds_range len a b :
  0 <= len ->
  0 <= (substring_bounds len a b).1
  /\ (substring_bounds len a b).1 <= (substring_bounds len a b).2
  /\ (substring_bounds len a b).2 <= len.
Proof.
  intros H. unfold substring_bounds; simpl.
  pose proof (clamp_bounds len a H). pose proof (clamp_bounds len b H). lia.
Qed.

(** Within the document and in order, [substring] is the plain slice. *)
Lemma substring_slice s a b :
  0 <= a -> a <= b -> b <= Z.of_nat (String.length s) ->
  substring s a b = Str.slice (Z.to_nat a) (Z.to_nat b) s.
Proof.
  intros Ha Hab Hb. unfold substring, slice_bounds.
  rewrite substring_bounds_ordered by done. simpl.
  by rewrite !clamp_id by lia.
Qed.

(** Clamping the arguments beforehand changes nothing. *)
Lemma substring_clamp s a b :
  substring s a b
  = substring s (clamp (Z.of_nat (String.length s)) a)
                (clamp (Z.of_nat (String.length s)) b).
Proof.
  unfold substring, substring_bounds.
  by rewrite !clamp_clamp by lia.
Qed.

Lemma length_slice_bounds s b :
  (String.length (slice_bounds s b) <= String.length s)%nat.
Proof. unfold slice_bounds. rewrite StrFacts.length_slice. lia. Qed.

Lemma length_substring s a b :
  (String.length (substring s a b) <= String.length s)%nat.
Proof. apply length_slice_bounds. Qed.

Lemma substring_same s a : substring s a a = "".
Proof.
  unfold substring, slice_bounds, substring_bounds. simpl.
  apply StrFacts.slice_empty. lia.
Qed.

Lemma substring_from_drop s a :
  0 <= a <= Z.of_nat (String.length s) ->
  substring_from s a = Str.drop (Z.to_nat a) s.
Proof.
  intros H. unfold substring_from. rewrite substring_slice by lia.
  apply StrFacts.slice_to_end. lia.
Qed.

(** ** [trim] *)

Lemma trimStart_all_white_space s :
  all_white_space s = true -> trimStart s = "".
Proof.
  induction s as [|c s IH]; simpl; [done|].
  destruct (is_white_space c); simpl; [done | discriminate].
Qed.

Lemma trimEnd_empty s : trimEnd s = "" -> all_white_space s = true.
Proof.
  induction s as [|c s IH]; simpl; [done|].
  destruct (trimEnd s); [|discriminate].
  destruct (is_white_space c); [auto | discriminate].
Qed.

(** [s.trim() === ''] says that [s] is made of white space only. *)
Lemma trim_empty_iff s : trim s = "" <-> all_white_space s = true.
Proof.
  unfold trim. split.
  - intros H. apply trimEnd_empty in H.
    induction s as [|c s IH]; simpl in *; [done|].
    destruct (is_white_space c) eqn:Hc; simpl in *; [auto|].
    by rewrite Hc in H.
  - intros H. by rewrite trimStart_all_white_space.
Qed.

(** ** [Array_sort] under the comparator [by_position_start] *)

Section sort_facts.
Implicit Types (a x y : Annotation.t) (l : list Annotation.t).

Local Abbreviation start := Annotation.position_start.
Local Abbreviation sort := (Array_sort by_position_start).
Local Abbreviation insert := (sort_insert by_position_start).

Lemma by_position_start_pos x y :
  0 < by_position_start x y <-> start y < start x.
Proof. unfold by_position_start. lia. Qed.

Lemma sort_insert_perm x l : insert x l ≡ₚ x :: l.
Proof.
  induction l as [|y l IH]; simpl; [done|].
  case_bool_decide; [|done].
  by rewrite IH, Permutation_swap.
Qed.

Lemma Array_sort_perm l : sort l ≡ₚ l.
Proof.
  induction l as [|x l IH]; simpl; [done|].
  by rewrite sort_insert_perm, IH.
Qed.

Lemma Array_sort_length l : length (sort l) = length l.
Proof. by rewrite Array_sort_perm. Qed.

Lemma sort_insert_sorted x l :
  StronglySorted starts_before l -> StronglySorted starts_before (insert x l).
Proof.
  induction 1 as [|y l Hl IH Hy]; simpl.
  - repeat constructor.
  - case_bool_decide as Hxy; rewrite by_position_start_pos in Hxy.
    + constructor; [done|].
      rewrite sort_insert_perm. constructor; [|done].
      unfold starts_before. lia.
    + constructor; [by constructor|].
      constructor; [unfold starts_before; lia|].
      eapply Forall_impl; [exact Hy|]. unfold starts_before. intros; lia.
Qed.

Lemma Array_sort_sorted l : StronglySorted starts_before (sort l).
Proof.
  induction l as [|x l IH]; simpl; [constructor|].
  by apply sort_insert_sorted.
Qed.

Lemma sort_insert_filter k x l :
  filter (λ a, start a = k) (insert x l) = filter (λ a, start a = k) (x :: l).
Proof.
  induction l as [|y l IH]; simpl; [done|].
  case_bool_decide as Hxy; [|done]. rewrite by_position_start_pos in Hxy.
  rewrite filter_cons, IH, !filter_cons.
  repeat case_decide; try done; lia.
Qed.

(** Stability: the annotations that share a [position_start] keep their
    order. *)
Lemma Array_sort_stable k l :
  filter (λ a, start a = k) (sort l) = filter (λ a, start a = k) l.
Proof.
  induction l as [|x l IH]; simpl; [done|].
  by rewrite sort_insert_filter, !filter_cons, IH.
Qed.

Lemma sort_insert_head x l :
  Forall (starts_before x) l -> insert x l = x :: l.
Proof.
  destruct 1 as [|y l Hy _]; simpl; [done|].
  case_bool_decide as Hxy; [|done]. rewrite by_position_start_pos in Hxy.
  unfold starts_before in Hy. lia.
Qed.

(** A sorted array is left as it is. *)
Lemma Array_sort_sorted_id l :
  StronglySorted starts_before l -> sort l = l.
Proof.
  induction 1 as [|x l Hl IH Hx]; simpl; [done|].
  rewrite IH. by apply sort_insert_head.
Qed.

Lemma Array_sort_idemp l : sort (sort l) = sort l.
Proof. apply Array_sort_sorted_id, Array_sort_sorted. Qed.

(** Sortedness and stability leave one result only. *)
Lemma stable_sorted_unique l1 l2 :
  StronglySorted starts_before l1 ->
  StronglySorted starts_before l2 ->
  (∀ k, filter (λ a, start a = k) l1 = filter (λ a, start a = k) l2) ->
  l1 = l2.
Proof.
  intros H1; revert l2.
  induction H1 as [|x l1 Hl1 IH Hx]; intros l2 H2 Hf.
  - destruct l2 as [|y l2]; [done|].
    specialize (Hf (start y)). rewrite filter_cons_True in Hf by done.
    discriminate.
  - destruct H2 as [|y l2 Hl2 Hy].
    { specialize (Hf (start x)). rewrite filter_cons_True in Hf by done.
      discriminate. }
    assert (start x = start y) as Hxy.
    { apply Z.le_antisymm.
      - pose proof (Hf (start y)) as Hk.
        rewrite (filter_cons_True _ y) in Hk by done.
        assert (y ∈ filter (λ a, start a = start y) (x :: l1)) as Hin
          by (rewrite Hk; left).
        apply list_elem_of_filter in Hin as [_ Hin].
        apply elem_of_cons in Hin as [->|Hin]; [done|].
        rewrite Forall_forall in Hx. by apply Hx.
      - pose proof (Hf (start x)) as Hk.
        rewrite (filter_cons_True _ x) in Hk by done.
        assert (x ∈ filter (λ a, start a = start x) (y :: l2)) as Hin
          by (rewrite <- Hk; left).
        apply list_elem_of_filter in Hin as [_ Hin].
        apply elem_of_cons in Hin as [->|Hin]; [done|].
        rewrite Forall_forall in Hy. by apply Hy. }
    assert (x = y) as ->.
    { pose proof (Hf (start x)) as Hk.
      rewrite (filter_cons_True _ x), (filter_cons_True _ y) in Hk by done.
      by injection Hk. }
    f_equal. apply IH; [done|]. intros k. specialize (Hf k).
    rewrite !filter_cons in Hf. case_decide; [by injection Hf | done].
Qed.

End sort_facts.

(** ** The walk *)

Section walk_facts.
Context (content : string).
Implicit Types (hs : list Annotation.t) (L : Z).

Local Abbreviation len := (Z.of_nat (String.length content)).

Lemma foldl_forEach_body hs segments L :
  foldl (forEach_body content) (segments, L) hs
  = (segments ++ (walk content L hs).1, (walk content L hs).2).
Proof.
  revert segments L; induction hs as [|a hs IH]; intros segments L; simpl.
  - by rewrite app_nil_r.
  - destruct (walk content (Annotation.position_end a) hs) as [rest final] eqn:Hw.
    case_bool_decide; rewrite IH, Hw; simpl; by rewrite <- ?app_assoc.
Qed.

(** With annotations, [render] is the walk over the sorted array followed
    by the trailing remainder. *)
Lemma render_walk docAnnotations :
  docAnnotations ≠ [] ->
  render content docAnnotations
  = Fragment
      ((walk content 0 (Array_sort by_position_start docAnnotations)).1
       ++ trailing content
            (walk content 0 (Array_sort by_position_start docAnnotations)).2).
Proof.
  intros Hne. unfold render, trailing.
  rewrite bool_decide_eq_false_2 by (by destruct docAnnotations).
  rewrite foldl_forEach_body. simpl.
  by case_bool_decide; rewrite ?app_nil_r.
Qed.

Lemma walk_cons L a hs :
  walk content L (a :: hs)
  = ((if bool_decide (L < Annotation.position_start a)
      then [plain (substring content L (Annotation.position_start a))]
      else [])
     ++ highlight_of content a
        :: (walk content (Annotation.position_end a) hs).1,
     (walk content (Annotation.position_end a) hs).2).
Proof.
  simpl. by destruct (walk content (Annotation.position_end a) hs).
Qed.

(** The cursor after the walk is the [position_end] of the last
    annotation. *)
Lemma walk_cursor L hs :
  (walk content L hs).2 = default L (Annotation.position_end <$> last hs).
Proof.
  revert L; induction hs as [|a hs IH]; intros L; [done|].
  rewrite walk_cons; simpl. rewrite IH, last_cons. by destruct (last hs).
Qed.

(** One highlighted segment per annotation, in the order of the walk. *)
Lemma walk_highlighted L hs :
  filter (λ seg, highlighted seg = true) (walk content L hs).1
  = highlight_of content <$> hs.
Proof.
  revert L; induction hs as [|a hs IH]; intros L; [done|].
  rewrite walk_cons; simpl. rewrite filter_app, filter_cons_True by done.
  rewrite IH. by case_bool_decide.
Qed.

Lemma walk_annotations L hs : annotations_of (walk content L hs).1 = hs.
Proof.
  unfold annotations_of.
  revert L; induction hs as [|a hs IH]; intros L; [done|].
  rewrite walk_cons; simpl. rewrite omap_app; simpl.
  rewrite IH. by case_bool_decide.
Qed.

Lemma trailing_plain L :
  filter (λ seg, highlighted seg = true) (trailing content L) = []
  /\ annotations_of (trailing content L) = [].
Proof. unfold trailing. by case_bool_decide. Qed.

Lemma walk_text_length L hs :
  Forall (λ seg, (String.length (text seg) <= String.length content)%nat)
         (walk content L hs).1.
Proof.
  revert L; induction hs as [|a hs IH]; intros L; [constructor|].
  rewrite walk_cons; simpl. apply Forall_app; split.
  - case_bool_decide; repeat constructor. apply length_substring.
  - constructor; [apply length_substring | apply IH].
Qed.

Lemma trailing_text_length L :
  Forall (λ seg, (String.length (text seg) <= String.length content)%nat)
         (trailing content L).
Proof.
  unfold trailing. case_bool_decide; repeat constructor.
  apply length_substring.
Qed.

(** Coverage, one step at a time: from a cursor inside the document, over
    annotations that each begin at or after the end of the one before, the
    text pushed so far is always the prefix of the document that ends at
    the cursor. *)
Lemma walk_prefix L hs :
  0 <= L <= len ->
  Forall (in_range content) hs ->
  Forall (λ a, L <= Annotation.position_start a) hs ->
  StronglySorted precedes hs ->
  Str.take (Z.to_nat L) content +:+ Str.join (text <$> (walk content L hs).1)
  = Str.take (Z.to_nat (walk content L hs).2) content
  /\ 0 <= (walk content L hs).2 <= len.
Proof.
  revert L; induction hs as [|a hs IH]; intros L HL Hin Hge Hs.
  - simpl. by rewrite StrFacts.app_nil_r.
  - apply Forall_cons in Hin as [(Ha0 & Hae & Hal) Hin].
    apply Forall_cons in Hge as [HLa _].
    apply StronglySorted_inv in Hs as [Hs Hpre].
    destruct (IH (Annotation.position_end a)) as [Heq Hfin];
      [lia | done | exact Hpre | done |].
    rewrite walk_cons; simpl. split; [|done].
    set (gap := if bool_decide (L < Annotation.position_start a)
                then [plain (substring content L (Annotation.position_start a))]
                else []).
    assert (Str.take (Z.to_nat L) content +:+ Str.join (text <$> gap)
            = Str.take (Z.to_nat (Annotation.position_start a)) content)
      as Hgap.
    { subst gap. case_bool_decide; simpl.
      - rewrite StrFacts.app_nil_r.
        rewrite substring_slice by lia. apply StrFacts.take_slice. lia.
      - rewrite StrFacts.app_nil_r. f_equal. lia. }
    rewrite <- Heq, fmap_app, StrFacts.join_app, fmap_cons, StrFacts.join_cons.
    rewrite <- !StrFacts.app_assoc, Hgap. f_equal. simpl.
    rewrite substring_slice by lia. apply StrFacts.take_slice. lia.
Qed.

End walk_facts.

(** ** The rendering *)

Lemma segments_of_render content docAnnotations :
  segments_of (render content docAnnotations)
  = if bool_decide (docAnnotations = []) then [plain content]
    else (walk content 0 (Array_sort by_position_start docAnnotations)).1
         ++ trailing content
              (walk content 0 (Array_sort by_position_start docAnnotations)).2.
Proof.
  case_bool_decide as Hnil; [by subst|]. by rewrite render_walk.
Qed.

(** Whatever the annotations, the highlighted segments of the rendering
    are those of the sorted annotations, one each and in that order. *)
Lemma render_highlighted content docAnnotations :
  filter (λ seg, highlighted seg = true)
         (segments_of (render content docAnnotations))
  = highlight_of content <$> Array_sort by_position_start docAnnotations.
Proof.
  rewrite segments_of_render. case_bool_decide as Hnil; [by subst|].
  rewrite filter_app, walk_highlighted.
  rewrite (proj1 (trailing_plain _ _)). apply app_nil_r.
Qed.

Lemma render_annotations content docAnnotations :
  annotations_of (segments_of (render content docAnnotations))
  = Array_sort by_position_start docAnnotations.
Proof.
  rewrite segments_of_render. case_bool_decide as Hnil; [by subst|].
  unfold annotations_of. rewrite omap_app. fold (annotations_of).
  fold (annotations_of (trailing content
    (walk content 0 (Array_sort by_position_start docAnnotations)).2)).
  rewrite walk_annotations, (proj2 (trailing_plain _ _)). apply app_nil_r.
Qed.

(** C6. Without annotations the rendering is the document's text itself:
    one plain segment whose text is the whole of [content]. *)
Theorem render_no_annotations content :
  render content [] = Text content
  /\ segments_of (render content []) = [plain content]
  /\ text (plain content) = content
  /\ highlighted (plain content) = false.
Proof. done. Qed.

(** The same through the component state: an empty array for the
    document, or no entry under an id that is no key of
    [Object.prototype]. *)
Lemma renderDocumentWithHighlights_no_annotations annotations doc :
  annotations !! Document.id doc = Some []
  \/ (annotations !! Document.id doc = None
      /\ Document.id doc ∉ Object_prototype) ->
  renderDocumentWithHighlights annotations doc
  = Some (Text (Document.content doc), annotations).
Proof.
  unfold renderDocumentWithHighlights. intros [-> | [-> Hid]]; [done|].
  by rewrite bool_decide_eq_false_2.
Qed.

Lemma rendered_text_non_overlapping content docAnnotations :
  non_overlapping content docAnnotations ->
  rendered_text (render content docAnnotations) = content.
Proof.
  intros [Hin Hsorted]. unfold rendered_text.
  rewrite segments_of_render. case_bool_decide as Hnil.
  { simpl. apply StrFacts.app_nil_r. }
  set (hs := Array_sort by_position_start docAnnotations) in *.
  assert (Forall (in_range content) hs) as Hin'
    by (subst hs; by rewrite Array_sort_perm).
  destruct (walk_prefix content 0 hs) as [Heq Hfin]; [lia | done | | done |].
  { eapply Forall_impl; [exact Hin'|]. by intros a (? & _). }
  rewrite fmap_app, StrFacts.join_app.
  change (Str.join (text <$> (walk content 0 hs).1)
          = Str.take (Z.to_nat (walk content 0 hs).2) content) in Heq.
  rewrite Heq.
  unfold trailing. case_bool_decide as Hlt; simpl.
  - rewrite StrFacts.app_nil_r, substring_from_drop by lia.
    apply StrFacts.take_drop.
  - rewrite StrFacts.app_nil_r. apply StrFacts.take_all. lia.
Qed.

Lemma apart_permutation (l l' : list Annotation.t) :
  l ≡ₚ l' -> StronglySorted apart l -> StronglySorted apart l'.
Proof.
  induction 1 as [|x l l' Hp IH|x y l|l l' l'' _ IH1 _ IH2]; intros Hs.
  - done.
  - apply StronglySorted_inv in Hs as [Hs Hx].
    constructor; [by apply IH | by rewrite <- Hp].
  - apply StronglySorted_inv in Hs as [Hs Hy].
    apply StronglySorted_inv in Hs as [Hs Hx].
    apply Forall_cons in Hy as [Hyx Hy].
    constructor; [by constructor|].
    constructor; [|done]. unfold apart in *. tauto.
  - auto.
Qed.

Lemma apart_sorted_precedes (hs : list Annotation.t) :
  StronglySorted starts_before hs ->
  Forall (λ a, Annotation.position_start a < Annotation.position_end a) hs ->
  StronglySorted apart hs ->
  StronglySorted precedes hs.
Proof.
  induction 1 as [|x l Hs IH Hx]; intros Hne Hap; [constructor|].
  apply StronglySorted_inv in Hap as [Hap Hxa].
  apply Forall_cons in Hne as [Hxne Hne].
  constructor; [by apply IH|].
  rewrite Forall_forall in Hx, Hxa, Hne. apply Forall_forall.
  intros y Hy. specialize (Hx y Hy). specialize (Hxa y Hy).
  specialize (Hne y Hy). unfold apart, precedes, starts_before in *. lia.
Qed.

(** Stored in any order, non-empty ranges that are pairwise apart form a
    non-overlapping set. *)
Lemma pairwise_disjoint_non_overlapping content docAnnotations :
  pairwise_disjoint content docAnnotations ->
  non_overlapping content docAnnotations.
Proof.
  intros (Hin & Hne & Hap). split; [done|].
  apply apart_sorted_precedes.
  - apply Array_sort_sorted.
  - by rewrite Array_sort_perm.
  - eapply apart_permutation; [|exact Hap]. by rewrite Array_sort_perm.
Qed.

(** C2. Coverage: for annotations that lie within the document and, once
    sorted, never begin before an earlier one has ended, the texts of the
    segments put end to end are the document's text. *)
Theorem render_coverage content docAnnotations :
  non_overlapping content docAnnotations ->
  Str.join (text <$> segments_of (render content docAnnotations)) = content.
Proof. apply rendered_text_non_overlapping. Qed.

Lemma render_coverage_witness :
  Str.join
    (text <$> segments_of
       (render "The quick brown fox"
          [highlight 10 15 "yellow"; highlight 4 9 "green"]))
  = "The quick brown fox".
Proof.
  apply (render_coverage "The quick brown fox"
           [highlight 10 15 "yellow"; highlight 4 9 "green"]).
  split.
  - repeat constructor; simpl; lia.
  - repeat constructor; unfold precedes; simpl; lia.
Defined.

Lemma highlight_of_in_render content docAnnotations a :
  a ∈ docAnnotations ->
  highlight_of content a ∈ segments_of (render content docAnnotations).
Proof.
  intros Hin.
  assert (highlight_of content a
          ∈ highlight_of content <$> Array_sort by_position_start docAnnotations)
    as Hm by (apply list_elem_of_fmap_2; by rewrite Array_sort_perm).
  rewrite <- render_highlighted in Hm.
  by apply list_elem_of_filter in Hm as [_ Hm].
Qed.

Lemma substring_unfold s a b :
  let len := Z.of_nat (String.length s) in
  substring s a b
  = Str.slice (Z.to_nat (Z.min (clamp len a) (clamp len b)))
              (Z.to_nat (Z.max (clamp len a) (clamp len b))) s.
Proof. reflexivity. Qed.

(** C5. Offsets outside the document are clamped, and nothing throws:
    [render] is total. No segment is longer than the document. The
    highlighted segment of an annotation holds the code units of [content]
    between its two offsets, each first brought into [0, length(content)]:
    a negative offset counts as 0 and one beyond the document as its
    length. So an annotation that begins in the document and ends beyond
    it is highlighted from its [position_start] to the end of the text,
    and one that begins before the document and ends in it from the
    beginning of the text to its [position_end]. *)
Theorem render_out_of_range content docAnnotations :
  let len := Z.of_nat (String.length content) in
  let segments := segments_of (render content docAnnotations) in
  Forall (λ seg, (String.length (text seg) <= String.length content)%nat)
         segments
  /\ filter (λ seg, highlighted seg = true) segments
     = (λ a,
          let s := clamp len (Annotation.position_start a) in
          let e := clamp len (Annotation.position_end a) in
          mark (Str.slice (Z.to_nat (Z.min s e)) (Z.to_nat (Z.max s e)) content) a)
       <$> Array_sort by_position_start docAnnotations
  /\ (∀ x, (x <= 0 -> clamp len x = 0)
           /\ (0 <= x <= len -> clamp len x = x)
           /\ (len <= x -> clamp len x = len))
  /\ (∀ a, a ∈ docAnnotations ->
           0 <= Annotation.position_start a <= len ->
           len <= Annotation.position_end a ->
           mark (Str.drop (Z.to_nat (Annotation.position_start a)) content) a
           ∈ segments)
  /\ (∀ a, a ∈ docAnnotations ->
           Annotation.position_start a <= 0 ->
           0 <= Annotation.position_end a <= len ->
           mark (Str.take (Z.to_nat (Annotation.position_end a)) content) a
           ∈ segments).
Proof.
  intros len segments. subst segments. split; [|split; [|split; [|split]]].
  - rewrite segments_of_render. case_bool_decide.
    + repeat constructor.
    + apply Forall_app; split;
        [apply walk_text_length | apply trailing_text_length].
  - rewrite render_highlighted. apply list_fmap_ext.
    intros _ a _. unfold highlight_of. by rewrite substring_unfold.
  - intros x. unfold clamp. lia.
  - intros a Hin Hs He.
    pose proof (highlight_of_in_render content docAnnotations a Hin) as Hm.
    unfold highlight_of in Hm. rewrite substring_unfold in Hm.
    fold len in Hm. unfold clamp in Hm.
    replace (Z.min _ _)
      with (Annotation.position_start a) in Hm by lia.
    replace (Z.max _ _) with len in Hm by lia.
    rewrite StrFacts.slice_to_end in Hm by lia. exact Hm.
  - intros a Hin Hs He.
    pose proof (highlight_of_in_render content docAnnotations a Hin) as Hm.
    unfold highlight_of in Hm. rewrite substring_unfold in Hm.
    fold len in Hm. unfold clamp in Hm.
    replace (Z.min _ _) with 0 in Hm by lia.
    replace (Z.max _ _) with (Annotation.position_end a) in Hm by lia.
    by rewrite StrFacts.slice_0 in Hm.
Qed.

(** The example of the specification: ["quick"] highlighted in green. *)
Example render_quick_brown_fox :
  render "The quick brown fox" [highlight 4 9 "green"]
  = Fragment [plain "The "; mark "quick" (highlight 4 9 "green");
              plain " brown fox"]
  /\ backgroundColor (mark "quick" (highlight 4 9 "green"))
     = JSString "#bbf7d0".
Proof. by vm_compute. Qed.

(** What the second condition of [non_overlapping] is for: a zero-length
    annotation inside an earlier range takes the cursor back, and the
    remainder is rendered from there. *)
Example zero_length_inside_range :
  text <$> segments_of
    (render "abcdefghij" [highlight 0 10 "yellow"; highlight 5 5 "pink"])
  = ["abcdefghij"; ""; "fghij"].
Proof. reflexivity. Qed.

Example render_position_end_10000 :
  render alphabet20 [highlight 5 10000 "yellow"]
  = Fragment [plain "abcde";
              mark "fghijklmnopqrst" (highlight 5 10000 "yellow")].
Proof. reflexivity. Qed.

Example render_negative_position_start :
  render alphabet20 [highlight (-7) 3 "yellow"]
  = Fragment [mark "abc" (highlight (-7) 3 "yellow");
              plain "defghijklmnopqrst"].
Proof. reflexivity. Qed.

Lemma length_substring_in_range s a b :
  0 <= a -> a <= b -> b <= Z.of_nat (String.length s) ->
  String.length (substring s a b) = Z.to_nat (b - a).
Proof.
  intros Ha Hab Hb. rewrite substring_slice, StrFacts.length_slice by done.
  lia.
Qed.

(** C1, as the code has it. An annotation that begins before the cursor
    is sliced from its own [position_start], not from the cursor, and the
    cursor is then set to its [position_end] whether or not that lies
    before the old cursor. For the annotations [0,10) and [5,15) on a
    document of 20 code units the output is [content[0:10]],
    [content[5:15]], [content[15:20]]: the code units 5 to 9 come twice. *)
Theorem overlap_reslices content segments lastIndex a :
  Annotation.position_start a < lastIndex ->
  forEach_body content (segments, lastIndex) a
  = (segments ++
     [mark (substring content (Annotation.position_start a)
                              (Annotation.position_end a)) a],
     Annotation.position_end a)
  /\ (String.length content = 20%nat ->
      rendered_text
        (render content [highlight 0 10 "yellow"; highlight 5 15 "green"])
      = Str.slice 0 10 content +:+ Str.slice 5 15 content
        +:+ Str.slice 15 20 content).
Proof.
  intros Hlt. split.
  - unfold forEach_body. by rewrite bool_decide_eq_false_2 by lia.
  - intros Hlen. unfold rendered_text. rewrite segments_of_render.
    rewrite bool_decide_eq_false_2 by done.
    change (Array_sort by_position_start
              [highlight 0 10 "yellow"; highlight 5 15 "green"])
      with [highlight 0 10 "yellow"; highlight 5 15 "green"].
    rewrite !walk_cons. simpl. unfold trailing.
    rewrite bool_decide_eq_true_2 by lia. simpl.
    rewrite substring_from_drop by lia.
    rewrite !substring_slice by lia. simpl.
    rewrite StrFacts.app_nil_r. do 2 f_equal.
    symmetry. apply StrFacts.slice_to_end. lia.
Qed.

Lemma overlap_reslices_witness :
  forEach_body alphabet20
    ([mark "abcdefghij" (highlight 0 10 "yellow")], 10) (highlight 5 15 "green")
  = ([mark "abcdefghij" (highlight 0 10 "yellow")] ++
     [mark (substring alphabet20 5 15) (highlight 5 15 "green")], 15)
  /\ (String.length alphabet20 = 20%nat ->
      rendered_text
        (render alphabet20 [highlight 0 10 "yellow"; highlight 5 15 "green"])
      = Str.slice 0 10 alphabet20 +:+ Str.slice 5 15 alphabet20
        +:+ Str.slice 15 20 alphabet20).
Proof.
  apply (overlap_reslices alphabet20
           [mark "abcdefghij" (highlight 0 10 "yellow")] 10
           (highlight 5 15 "green")).
  simpl. lia.
Defined.

(** C1 fails as stated: on the document [a..t] with the annotations
    [0,10) and [5,15), the second highlighted slice is [content[5:15]] and
    not [content[max(5,10):15]], and the output repeats [fghij]. *)
Lemma overlap_duplicates_text :
  let second := highlight 5 15 "green" in
  let r := render alphabet20 [highlight 0 10 "yellow"; second] in
  (∃ seg, seg ∈ segments_of r /\ annotation seg = Some second
          /\ text seg = "fghijklmno"
          /\ text seg ≠ Str.slice (Z.to_nat (5 `max` 10)) 15 alphabet20)
  /\ rendered_text r = "abcdefghijfghijklmnopqrst"
  /\ rendered_text r ≠ alphabet20.
Proof.
  simpl. split; [|done].
  exists (mark "fghijklmno" (highlight 5 15 "green")).
  split; [|done]. apply list_elem_of_In. simpl. auto.
Qed.

(** The cursor does move backward: after [0,10), the annotation [2,5)
    leaves it at 5, and the remainder is rendered from there. *)
Example cursor_moves_backward :
  foldl (forEach_body "abcdefghij") ([], 0)
        [highlight 0 10 "yellow"; highlight 2 5 "green"]
  = ([mark "abcdefghij" (highlight 0 10 "yellow");
      mark "cde" (highlight 2 5 "green")], 5)
  /\ rendered_text
       (render "abcdefghij" [highlight 0 10 "yellow"; highlight 2 5 "green"])
     = "abcdefghijcdefghij".
Proof. done. Qed.

(** C10, as the code has it. Every annotation gets exactly one highlighted
    segment, in the order of the sort, and none is skipped; its text is
    [content.substring(position_start, position_end)]. That text is empty
    for a zero-length range; for a range inside the document it has
    [position_end - position_start] code units, also when the range lies
    inside one that was emitted before. *)
Theorem one_highlight_per_annotation content docAnnotations :
  filter (λ seg, highlighted seg = true)
         (segments_of (render content docAnnotations))
  = (λ a, mark (substring content (Annotation.position_start a)
                                  (Annotation.position_end a)) a)
    <$> Array_sort by_position_start docAnnotations
  /\ length (filter (λ seg, highlighted seg = true)
                    (segments_of (render content docAnnotations)))
     = length docAnnotations
  /\ (∀ a, Annotation.position_start a = Annotation.position_end a ->
           substring content (Annotation.position_start a)
                             (Annotation.position_end a) = "")
  /\ (∀ a, in_range content a ->
           String.length (substring content (Annotation.position_start a)
                                            (Annotation.position_end a))
           = Z.to_nat (Annotation.position_end a - Annotation.position_start a)).
Proof.
  split; [apply render_highlighted|]. split; [|split].
  - by rewrite render_highlighted, length_fmap, Array_sort_length.
  - intros a ->. apply substring_same.
  - intros a (? & ? & ?). by apply length_substring_in_range.
Qed.

(** C10 fails as stated: the annotation [2,5) lies inside [0,10), which
    was emitted before it, and its highlighted segment is [cde], not an
    empty one. *)
Lemma nested_highlight_not_empty :
  let inner := highlight 2 5 "green" in
  let r := render "abcdefghij" [highlight 0 10 "yellow"; inner] in
  filter (λ seg, highlighted seg = true) (segments_of r)
  = [mark "abcdefghij" (highlight 0 10 "yellow"); mark "cde" inner]
  /\ ¬ (∀ seg, seg ∈ segments_of r -> annotation seg = Some inner ->
               text seg = "").
Proof.
  simpl. split; [done|]. intros H.
  specialize (H (mark "cde" (highlight 2 5 "green"))).
  discriminate H; [|done]. apply list_elem_of_In. simpl. auto.
Qed.

Example zero_length_highlight :
  render "abcdefghij" [highlight 4 4 "pink"]
  = Fragment [plain "abcd"; mark "" (highlight 4 4 "pink"); plain "efghij"].
Proof. reflexivity. Qed.

(** C9. The annotations are processed in ascending order of
    [position_start]; those with the same [position_start] keep the order
    they have in the input; nothing is lost or added. The sort is done in
    place, and rendering the array it leaves behind gives the same
    result. Any list that is sorted and keeps the ties in input order is
    this one, so the result does not depend on how the engine sorts. *)
Theorem render_sort_order content docAnnotations :
  let highlights := Array_sort by_position_start docAnnotations in
  annotations_of (segments_of (render content docAnnotations)) = highlights
  /\ StronglySorted starts_before highlights
  /\ highlights ≡ₚ docAnnotations
  /\ (∀ k, filter (λ a, Annotation.position_start a = k) highlights
           = filter (λ a, Annotation.position_start a = k) docAnnotations)
  /\ (∀ l, StronglySorted starts_before l ->
           (∀ k, filter (λ a, Annotation.position_start a = k) l
                 = filter (λ a, Annotation.position_start a = k) docAnnotations) ->
           l = highlights)
  /\ render content highlights = render content docAnnotations.
Proof.
  intros highlights. subst highlights.
  split; [apply render_annotations|].
  split; [apply Array_sort_sorted|].
  split; [apply Array_sort_perm|].
  split; [intros k; apply Array_sort_stable|].
  split.
  - intros l Hl Hk. apply stable_sorted_unique;
      [done | apply Array_sort_sorted |].
    intros k. by rewrite Hk, Array_sort_stable.
  - unfold render. by rewrite Array_sort_length, Array_sort_idemp.
Qed.

(** Rendering twice: the first call sorts the array held in the state, the
    second finds it sorted and shows the same. *)
Lemma renderDocumentWithHighlights_again annotations doc first :
  renderDocumentWithHighlights annotations doc = Some first ->
  renderDocumentWithHighlights first.2 doc = Some first.
Proof.
  unfold renderDocumentWithHighlights.
  destruct (annotations !! Document.id doc) as [rows|] eqn:Hl.
  - case_bool_decide as Hlen; intros Hfirst; injection Hfirst as <-; cbn [snd].
    + rewrite Hl. by rewrite bool_decide_eq_true_2.
    + rewrite lookup_insert_eq.
      rewrite bool_decide_eq_false_2 by (by rewrite Array_sort_length).
      rewrite Array_sort_idemp, insert_insert_eq. do 2 f_equal.
      unfold render. by rewrite Array_sort_length, Array_sort_idemp.
  - destruct (bool_decide (Document.id doc ∈ Object_prototype)) eqn:Hp;
      [destruct (bool_decide (Document.id doc ∈ Object_prototype_nullary)) eqn:Hn;
         [|done]|];
      intros Hfirst; injection Hfirst as <-; cbn [snd];
      by rewrite Hl, ?Hp, ?Hn.
Qed.

(** ** The positions of the segments *)

Section bounds_facts.
Context (content : string).

Local Abbreviation len := (Z.of_nat (String.length content)).

(** [walk_bounds] records the slices that [walk] takes. *)
Lemma walk_bounds_text L hs :
  text <$> (walk content L hs).1
  = slice_bounds content <$> (walk_bounds len L hs).1
  /\ (walk content L hs).2 = (walk_bounds len L hs).2.
Proof.
  revert L; induction hs as [|a hs IH]; intros L; [done|].
  rewrite walk_cons. simpl.
  destruct (IH (Annotation.position_end a)) as [IH1 IH2].
  destruct (walk_bounds len (Annotation.position_end a) hs) as [bs final].
  simpl in *. rewrite !fmap_app, !fmap_cons, IH1. split; [|done].
  by case_bool_decide.
Qed.

Lemma render_bounds_text docAnnotations :
  text <$> segments_of (render content docAnnotations)
  = slice_bounds content <$> render_bounds content docAnnotations.
Proof.
  rewrite segments_of_render. unfold render_bounds.
  destruct docAnnotations as [|a l].
  { simpl. unfold slice_bounds. simpl. f_equal.
    rewrite StrFacts.slice_0. symmetry. apply StrFacts.take_all. lia. }
  rewrite bool_decide_eq_false_2 by done.
  rewrite (bool_decide_eq_false_2 (length (a :: l) = 0%nat)) by done.
  set (hs := Array_sort by_position_start (a :: l)).
  destruct (walk_bounds_text 0 hs) as [H1 H2].
  destruct (walk_bounds len 0 hs) as [bs final]. simpl in *.
  rewrite !fmap_app, H1, H2. f_equal.
  unfold trailing. by case_bool_decide.
Qed.

Lemma walk_bounds_in_document L hs :
  Forall (λ b, 0 <= b.1 /\ b.1 <= b.2 /\ b.2 <= len) (walk_bounds len L hs).1.
Proof.
  revert L; induction hs as [|a hs IH]; intros L; [constructor|]. simpl.
  specialize (IH (Annotation.position_end a)).
  destruct (walk_bounds len (Annotation.position_end a) hs) as [bs final].
  simpl in *. apply Forall_app; split.
  - case_bool_decide; repeat constructor; apply substring_bounds_range; lia.
  - constructor; [apply substring_bounds_range; lia | done].
Qed.

(** Over annotations sorted by [position_start], none of which ends before
    it begins, and from a cursor [L] that is not below a bound [k] of all
    the [position_start]s: the segments begin at non-decreasing positions,
    all between the clamped [k] and the clamped final cursor. *)
Lemma walk_bounds_sorted L k hs :
  k <= L ->
  Forall ordered_range hs ->
  Forall (λ a, k <= Annotation.position_start a) hs ->
  StronglySorted starts_before hs ->
  StronglySorted Z.le ((walk_bounds len L hs).1.*1)
  /\ Forall (λ f, clamp len k <= f <= clamp len (walk_bounds len L hs).2)
            ((walk_bounds len L hs).1.*1)
  /\ k <= (walk_bounds len L hs).2.
Proof.
  revert L k; induction hs as [|a hs IH]; intros L k HkL Hord Hk Hs.
  { simpl. repeat split; [constructor | constructor | done]. }
  apply Forall_cons in Hord as [Ha Hord].
  apply Forall_cons in Hk as [Hka Hk].
  apply StronglySorted_inv in Hs as [Hs Hhd].
  unfold ordered_range in Ha.
  destruct (IH (Annotation.position_end a) (Annotation.position_start a))
    as (IHs & IHb & IHf); [done | done | exact Hhd | done |].
  simpl.
  destruct (walk_bounds len (Annotation.position_end a) hs) as [bs final].
  simpl in *.
  pose proof (clamp_mono len _ _ Hka) as Hcka.
  pose proof (clamp_mono len _ _ IHf) as Hcaf.
  rewrite (substring_bounds_ordered len (Annotation.position_start a)) by done.
  assert (StronglySorted Z.le
            (clamp len (Annotation.position_start a) :: bs.*1)) as Hrest.
  { constructor; [done|]. eapply Forall_impl; [exact IHb|].
    simpl. intros; lia. }
  assert (Forall (λ f, clamp len k <= f <= clamp len final)
                 (clamp len (Annotation.position_start a) :: bs.*1)) as Hall.
  { constructor; [lia|]. eapply Forall_impl; [exact IHb|].
    simpl. intros; lia. }
  case_bool_decide as Hgap; simpl.
  - pose proof (clamp_mono len k L HkL).
    pose proof (clamp_mono len L (Annotation.position_start a)).
    rewrite Z.min_l by lia.
    split; [|split; [|lia]].
    + constructor; [done|]. constructor; [lia|].
      eapply Forall_impl; [exact IHb|]. simpl. intros; lia.
    + constructor; [lia | done].
  - split; [done|]. split; [done | lia].
Qed.

Lemma start_lower_bound (hs : list Annotation.t) :
  ∃ k, k <= 0 /\ Forall (λ a, k <= Annotation.position_start a) hs.
Proof.
  induction hs as [|a hs (k & Hk & IH)].
  - exists 0. split; [done | constructor].
  - exists (k `min` Annotation.position_start a). split; [lia|].
    constructor; [lia|]. eapply Forall_impl; [exact IH|].
    simpl. intros; lia.
Qed.

(** C4, as the code has it. For annotations whose [position_start] does
    not exceed their [position_end], overlapping or not, in or out of the
    document: the slices of the document that the segments hold begin at
    non-decreasing positions. [render_bounds] gives the slice of every
    segment. *)
Theorem render_order_preserved docAnnotations :
  Forall ordered_range docAnnotations ->
  text <$> segments_of (render content docAnnotations)
  = slice_bounds content <$> render_bounds content docAnnotations
  /\ Forall (λ b, 0 <= b.1 /\ b.1 <= b.2 /\ b.2 <= len)
            (render_bounds content docAnnotations)
  /\ StronglySorted Z.le ((render_bounds content docAnnotations).*1).
Proof.
  intros Hord. split; [apply render_bounds_text|].
  unfold render_bounds. case_bool_decide as Hnil.
  { split; repeat constructor; simpl; lia. }
  set (hs := Array_sort by_position_start docAnnotations).
  assert (Forall ordered_range hs) as Hord'
    by (subst hs; by rewrite Array_sort_perm).
  destruct (start_lower_bound hs) as (k & Hk0 & Hk).
  destruct (walk_bounds_sorted 0 k hs) as (Hs & Hb & Hf);
    [done | done | done | apply Array_sort_sorted |].
  pose proof (walk_bounds_in_document 0 hs) as Hdoc.
  destruct (walk_bounds len 0 hs) as [bs final]. simpl in *.
  case_bool_decide as Hlt.
  - split.
    + apply Forall_app; split; [done|].
      repeat constructor; apply substring_bounds_range; lia.
    + rewrite fmap_app. apply StronglySorted_app.
      split; [|split; [done | repeat constructor]].
      intros x1 x2 Hx1 Hx2. rewrite Forall_forall in Hb.
      apply Hb in Hx1. simpl in Hx2. apply list_elem_of_singleton in Hx2.
      subst x2. pose proof (clamp_mono len final len). lia.
  - rewrite app_nil_r. done.
Qed.

End bounds_facts.

Lemma render_order_preserved_witness :
  let docAnnotations :=
    [highlight 5 15 "green"; highlight 0 10 "yellow"; highlight 12 400 "blue"] in
  text <$> segments_of (render alphabet20 docAnnotations)
  = slice_bounds alphabet20 <$> render_bounds alphabet20 docAnnotations
  /\ Forall (λ b, 0 <= b.1 /\ b.1 <= b.2
                  /\ b.2 <= Z.of_nat (String.length alphabet20))
            (render_bounds alphabet20 docAnnotations)
  /\ StronglySorted Z.le ((render_bounds alphabet20 docAnnotations).*1).
Proof.
  apply (render_order_preserved alphabet20).
  repeat constructor; unfold ordered_range; simpl; lia.
Defined.

(** C4 fails as stated: an annotation that ends before it begins is
    sliced with its offsets swapped. With the annotations (5,2) and (6,1)
    on the document [a..t] the segments begin at the positions 0, 2, 2, 1
    and 1 of the text. *)
Lemma reversed_range_not_ordered :
  let docAnnotations := [highlight 5 2 "yellow"; highlight 6 1 "green"] in
  text <$> segments_of (render alphabet20 docAnnotations)
  = ["abcde"; "cde"; "cdef"; "bcdef"; "bcdefghijklmnopqrst"]
  /\ text <$> segments_of (render alphabet20 docAnnotations)
     = slice_bounds alphabet20 <$> render_bounds alphabet20 docAnnotations
  /\ (render_bounds alphabet20 docAnnotations).*1 = [0; 2; 2; 1; 1]
  /\ ¬ StronglySorted Z.le (render_bounds alphabet20 docAnnotations).*1.
Proof.
  intros docAnnotations.
  assert ((render_bounds alphabet20 docAnnotations).*1 = [0; 2; 2; 1; 1])
    as Hstarts by reflexivity.
  split; [reflexivity|]. split; [reflexivity|]. split; [exact Hstarts|].
  rewrite Hstarts. intros Hs.
  apply StronglySorted_inv in Hs as [Hs _].
  apply StronglySorted_inv in Hs as [_ H2].
  apply Forall_cons in H2 as [_ H2]. apply Forall_cons in H2 as [H2 _]. lia.
Qed.

Example reversed_range_breaks_order :
  render_bounds alphabet20 [highlight 5 2 "yellow"; highlight 6 1 "green"]
  = [(0, 5); (2, 5); (2, 6); (1, 6); (1, 20)].
Proof. reflexivity. Qed.

(** ** The colour table *)

Lemma getHighlightColor_table :
  getHighlightColor "yellow" = JSString "#fef08a"
  /\ getHighlightColor "green" = JSString "#bbf7d0"
  /\ getHighlightColor "blue" = JSString "#bfdbfe"
  /\ getHighlightColor "pink" = JSString "#fbcfe8"
  /\ getHighlightColor "purple" = JSString "#e9d5ff".
Proof. by vm_compute. Qed.

Lemma colors_lookup_other color :
  color ∉ ["yellow"; "green"; "blue"; "pink"; "purple"] ->
  colors !! color = None.
Proof.
  intros Hnot. unfold colors.
  rewrite !lookup_insert_ne; [apply lookup_empty | ..];
    intros <-; apply Hnot; set_solver.
Qed.

(** A name that is neither in the table nor a key of [Object.prototype]
    gets the value of [yellow]. *)
Lemma getHighlightColor_default color :
  color ∉ ["yellow"; "green"; "blue"; "pink"; "purple"] ->
  color ∉ Object_prototype ->
  getHighlightColor color = JSString "#fef08a".
Proof.
  intros Hc Hp. unfold getHighlightColor, Get at 1.
  rewrite colors_lookup_other by done.
  by rewrite bool_decide_eq_false_2 by done.
Qed.

(** A missing colour (SQL NULL, the empty string, or a segment without
    annotation) is replaced by [yellow] at the call. *)
Lemma backgroundColor_missing seg :
  color_or_yellow (annotation seg) = "yellow" ->
  backgroundColor seg = JSString "#fef08a".
Proof. unfold backgroundColor. by intros ->. Qed.

(** A key of [Object.prototype] is found on the prototype, and what is
    found there is truthy: the fallback is not taken. *)
Lemma getHighlightColor_prototype_key color :
  color ∈ Object_prototype -> getHighlightColor color = JSInherited color.
Proof.
  unfold Object_prototype. rewrite !elem_of_cons, elem_of_nil.
  intros H. repeat (destruct H as [->|H]; [by vm_compute|]). done.
Qed.

(** C8 at the stored colour name [constructor]: the lookup gives the
    function that the literal inherits, not the value of [yellow]. *)
Theorem getHighlightColor_constructor :
  getHighlightColor "constructor" = JSInherited "constructor"
  /\ getHighlightColor "constructor" ≠ JSString "#fef08a"
  /\ backgroundColor (mark "quick" (highlight 4 9 "constructor"))
     = JSInherited "constructor".
Proof. by vm_compute. Qed.

(** ** Ranges over the text nodes *)

Section range_facts.
Implicit Types (nodes : list string) (i j o p : nat).

Lemma node_data_cons_0 s nodes : node_data (s :: nodes) 0 = s.
Proof. reflexivity. Qed.

Lemma node_data_cons_S s nodes i :
  node_data (s :: nodes) (S i) = node_data nodes i.
Proof. reflexivity. Qed.

Lemma flat_offset_0 nodes o : flat_offset nodes 0 o = o.
Proof. reflexivity. Qed.

Lemma flat_offset_S s nodes i o :
  flat_offset (s :: nodes) (S i) o
  = (String.length s + flat_offset nodes i o)%nat.
Proof. unfold flat_offset. simpl. symmetry. apply Nat.add_assoc. Qed.

Lemma valid_point_S s nodes i o :
  valid_point (s :: nodes) (S i) o <-> valid_point nodes i o.
Proof. unfold valid_point. rewrite node_data_cons_S. simpl. lia. Qed.

Lemma flat_offset_le nodes i o :
  valid_point nodes i o ->
  (flat_offset nodes i o <= String.length (Str.join nodes))%nat.
Proof.
  revert i; induction nodes as [|s nodes IH]; intros i [Hi Ho].
  { simpl in Hi. lia. }
  rewrite StrFacts.join_cons, StrFacts.length_app.
  destruct i as [|i].
  - rewrite flat_offset_0. rewrite node_data_cons_0 in Ho. lia.
  - rewrite flat_offset_S. rewrite node_data_cons_S in Ho.
    simpl in Hi. specialize (IH i). unfold valid_point in IH. lia.
Qed.

(** The text before a boundary point, read off the nodes, is the prefix of
    the whole text that has [flat_offset] code units. *)
Lemma preCaret_prefix nodes i o :
  valid_point nodes i o ->
  Str.join (take i nodes) +:+ Str.take o (node_data nodes i)
  = Str.take (flat_offset nodes i o) (Str.join nodes).
Proof.
  revert i; induction nodes as [|s nodes IH]; intros i [Hi Ho].
  { simpl in Hi. lia. }
  destruct i as [|i].
  - rewrite flat_offset_0, StrFacts.join_cons. simpl.
    rewrite node_data_cons_0 in *.
    by rewrite StrFacts.take_app_le.
  - rewrite flat_offset_S, node_data_cons_S in *. simpl in Hi.
    rewrite firstn_cons, !StrFacts.join_cons, StrFacts.app_assoc.
    rewrite IH by (split; [lia | done]).
    rewrite StrFacts.take_app_ge by lia. f_equal. f_equal. lia.
Qed.

Lemma length_preCaretRange_toString nodes r :
  valid_point nodes (startContainer r) (startOffset r) ->
  String.length (preCaretRange_toString nodes r)
  = flat_offset nodes (startContainer r) (startOffset r).
Proof.
  intros Hv. unfold preCaretRange_toString.
  rewrite preCaret_prefix, StrFacts.length_take by done.
  apply flat_offset_le in Hv. lia.
Qed.

Lemma slice_app_shift a b s t :
  Str.slice (String.length s + a) (String.length s + b) (s +:+ t)
  = Str.slice a b t.
Proof.
  unfold Str.slice. rewrite StrFacts.drop_app_ge by lia.
  f_equal; [lia | f_equal; lia].
Qed.

Lemma Range_toString_shift s nodes i o j p :
  Range_toString (s :: nodes) (mkRange (S i) o (S j) p)
  = Range_toString nodes (mkRange i o j p).
Proof.
  unfold Range_toString. simpl.
  rewrite !node_data_cons_S.
  destruct (bool_decide (i = j)) eqn:Hij.
  - apply bool_decide_eq_true in Hij as ->.
    by rewrite bool_decide_eq_true_2.
  - apply bool_decide_eq_false in Hij.
    by rewrite bool_decide_eq_false_2 by lia.
Qed.

(** A boundary point that comes later in the text does not lie in an
    earlier node. *)
Lemma flat_offset_order nodes i o j p :
  valid_point nodes i o -> valid_point nodes j p ->
  (flat_offset nodes i o < flat_offset nodes j p)%nat ->
  (i < j)%nat \/ (i = j /\ (o < p)%nat).
Proof.
  revert i j; induction nodes as [|s nodes IH]; intros i j Hi Hj Hlt.
  { destruct Hi as [Hi _]. simpl in Hi. lia. }
  destruct i as [|i], j as [|j].
  - rewrite !flat_offset_0 in Hlt. lia.
  - lia.
  - rewrite flat_offset_0, flat_offset_S in Hlt.
    destruct Hj as [_ Hj]. rewrite node_data_cons_0 in Hj. lia.
  - rewrite !flat_offset_S in Hlt. rewrite valid_point_S in Hi, Hj.
    destruct (IH i j Hi Hj) as [?|[? ?]]; lia.
Qed.

(** The stringification of a range, read off the nodes, is the slice of
    the whole text between the two boundary points. *)
Lemma Range_toString_slice nodes i o j p :
  valid_point nodes i o -> valid_point nodes j p ->
  (i < j)%nat \/ (i = j /\ (o <= p)%nat) ->
  Range_toString nodes (mkRange i o j p)
  = Str.slice (flat_offset nodes i o) (flat_offset nodes j p) (Str.join nodes).
Proof.
  revert i j; induction nodes as [|s nodes IH]; intros i j Hi Hj Hij.
  { destruct Hi as [Hi _]. simpl in Hi. lia. }
  destruct i as [|i].
  - rewrite flat_offset_0, StrFacts.join_cons.
    destruct Hi as [_ Ho]. rewrite node_data_cons_0 in Ho.
    destruct j as [|j].
    + rewrite flat_offset_0. destruct Hj as [_ Hp].
      rewrite node_data_cons_0 in Hp.
      unfold Range_toString. simpl. rewrite node_data_cons_0.
      unfold Str.slice. rewrite StrFacts.drop_app_le by lia.
      rewrite StrFacts.take_app_le; [done|].
      rewrite StrFacts.length_drop. lia.
    + rewrite flat_offset_S. rewrite valid_point_S in Hj.
      unfold Range_toString. simpl.
      rewrite node_data_cons_0, node_data_cons_S, Nat.sub_0_r.
      rewrite preCaret_prefix by done.
      unfold Str.slice. rewrite StrFacts.drop_app_le by lia.
      rewrite StrFacts.take_app_ge
        by (rewrite StrFacts.length_drop; lia).
      f_equal. f_equal. rewrite StrFacts.length_drop. lia.
  - destruct j as [|j]; [lia|].
    rewrite valid_point_S in Hi, Hj.
    rewrite Range_toString_shift, !flat_offset_S, StrFacts.join_cons.
    rewrite slice_app_shift. apply IH; [done | done | lia].
Qed.

(** A collapsed range has no text. *)
Lemma Range_toString_collapsed nodes r :
  collapsed r -> Range_toString nodes r = "".
Proof.
  intros [Hc Ho]. unfold Range_toString.
  rewrite bool_decide_eq_true_2 by done.
  apply StrFacts.slice_empty. lia.
Qed.

(** Every position of the text is a boundary point of some text node. *)
Lemma locate_valid nodes n :
  nodes ≠ [] -> (n <= String.length (Str.join nodes))%nat ->
  valid_point nodes (locate nodes n).1 (locate nodes n).2
  /\ flat_offset nodes (locate nodes n).1 (locate nodes n).2 = n.
Proof.
  revert n; induction nodes as [|s nodes IH]; intros n Hne Hn; [done|].
  simpl. case_bool_decide as Hs; simpl.
  - split; [|done]. split; simpl; [lia | done].
  - rewrite StrFacts.join_cons, StrFacts.length_app in Hn.
    destruct nodes as [|t nodes]; [simpl in Hn; lia|].
    destruct (IH (n - String.length s)%nat) as [Hv Hf]; [done | lia |].
    destruct (locate (t :: nodes) (n - String.length s)) as [i o].
    simpl in *. split.
    + by apply valid_point_S.
    + rewrite flat_offset_S, Hf. lia.
Qed.

Lemma range_of_selects nodes start end_ :
  nodes ≠ [] -> 0 <= start -> start <= end_ ->
  end_ <= Z.of_nat (String.length (Str.join nodes)) ->
  selects nodes (range_of nodes start end_) start end_.
Proof.
  intros Hne H0 Hse Hend. unfold selects, range_of. simpl.
  destruct (locate_valid nodes (Z.to_nat start)) as [Hv1 Hf1]; [done | lia |].
  destruct (locate_valid nodes (Z.to_nat end_)) as [Hv2 Hf2]; [done | lia |].
  rewrite Hf1, Hf2. repeat split; try done; try apply Hv1; try apply Hv2; lia.
Qed.

End range_facts.

(** ** The selection translator *)

(** C7. A selection whose text is empty or made of white space only is
    not translated: the handler returns before it sets any state, and it
    does so for every such selection, whatever the container. A collapsed
    selection is one of them. *)
Theorem empty_selection_ignored docId selection getElementById :
  toString selection = "" \/ all_white_space (toString selection) = true ->
  handleTextSelection docId (Some selection) getElementById = None
  /\ handleTextSelection docId None getElementById = None
  /\ ∀ nodes r, collapsed r ->
       handleTextSelection docId (Some (selection_on nodes r)) getElementById
       = None.
Proof.
  intros H.
  assert (∀ sel, trim (toString sel) = "" ->
                 handleTextSelection docId (Some sel) getElementById = None)
    as Hnone.
  { intros sel Hsel. unfold handleTextSelection.
    by rewrite bool_decide_eq_true_2. }
  split; [|split; [done|]].
  - apply Hnone, trim_empty_iff. by destruct H as [-> | H].
  - intros nodes r Hr. apply Hnone. simpl.
    by rewrite Range_toString_collapsed.
Qed.

Lemma empty_selection_ignored_witness :
  let container := text_nodes (render "a  b" [highlight 0 1 "blue"]) in
  let selection := selection_on container (mkRange 1 0 1 2) in
  handleTextSelection "doc" (Some selection) (Some container) = None
  /\ handleTextSelection "doc" None (Some container) = None
  /\ ∀ nodes r, collapsed r ->
       handleTextSelection "doc" (Some (selection_on nodes r)) (Some container)
       = None.
Proof.
  apply (empty_selection_ignored "doc"
           (selection_on (text_nodes (render "a  b" [highlight 0 1 "blue"]))
                         (mkRange 1 0 1 2))
           (Some (text_nodes (render "a  b" [highlight 0 1 "blue"])))).
  right. reflexivity.
Defined.

(** The text the container shows is the text of its nodes. *)
Lemma join_text_nodes r : Str.join (text_nodes r) = rendered_text r.
Proof. reflexivity. Qed.

Lemma text_nodes_nonempty content docAnnotations :
  text_nodes (render content docAnnotations) ≠ [].
Proof.
  unfold text_nodes. rewrite segments_of_render.
  case_bool_decide as Hnil; [done|].
  intros Hempty. apply fmap_nil_inv in Hempty.
  apply (f_equal annotations_of) in Hempty.
  unfold annotations_of in Hempty. rewrite omap_app in Hempty.
  fold (annotations_of (walk content 0 (Array_sort by_position_start docAnnotations)).1)
    in Hempty.
  rewrite walk_annotations in Hempty. apply app_eq_nil in Hempty as [Hs _].
  apply Hnil. apply Permutation_nil_r. by rewrite <- Hs, Array_sort_perm.
Qed.

Lemma translate_selected_range content docAnnotations docId r start end_ :
  non_overlapping content docAnnotations ->
  0 <= start -> start < end_ -> end_ <= Z.of_nat (String.length content) ->
  selects (text_nodes (render content docAnnotations)) r start end_ ->
  trim (substring content start end_) ≠ "" ->
  handleTextSelection docId
    (Some (selection_on (text_nodes (render content docAnnotations)) r))
    (Some (text_nodes (render content docAnnotations)))
  = Some (Selected.mk (substring content start end_) docId start end_).
Proof.
  intros Hanns H0 Hlt Hlen (Hvs & Hve & Hfs & Hfe) Htrim.
  set (nodes := text_nodes (render content docAnnotations)) in *.
  assert (Str.join nodes = content) as Hjoin
    by (subst nodes; rewrite join_text_nodes;
        by apply rendered_text_non_overlapping).
  assert (Range_toString nodes r = substring content start end_) as Htext.
  { destruct r as [i o j p]; simpl in *.
    rewrite Range_toString_slice, Hjoin; [|done|done|].
    - rewrite substring_slice by lia. f_equal; lia.
    - destruct (flat_offset_order nodes i o j p) as [?|[? ?]];
        [done | done | lia | lia | lia]. }
  unfold handleTextSelection, selection_on. simpl. rewrite Htext.
  rewrite bool_decide_eq_false_2 by done.
  rewrite length_preCaretRange_toString by done.
  rewrite length_substring_in_range by lia.
  f_equal. f_equal; lia.
Qed.

(** C3, as the code has it. Over a valid, non-overlapping annotation set,
    a selection of the code units [start <= i < end_] of the rendered
    document whose text is not white space only is translated to
    [content[start:end_]] with exactly the offsets [start] and [end_],
    wherever the two boundary points fall among the segments; and there is
    such a selection for every pair of offsets. *)
Theorem selection_round_trip content docAnnotations docId start end_ :
  non_overlapping content docAnnotations ->
  0 <= start -> start < end_ -> end_ <= Z.of_nat (String.length content) ->
  trim (substring content start end_) ≠ "" ->
  let nodes := text_nodes (render content docAnnotations) in
  selects nodes (range_of nodes start end_) start end_
  /\ ∀ r, selects nodes r start end_ ->
         handleTextSelection docId (Some (selection_on nodes r)) (Some nodes)
         = Some (Selected.mk (substring content start end_) docId start end_).
Proof.
  intros Hanns H0 Hlt Hlen Htrim nodes. subst nodes. split.
  - apply range_of_selects; [apply text_nodes_nonempty | lia | lia |].
    rewrite join_text_nodes, rendered_text_non_overlapping by done. lia.
  - intros r Hr. by apply translate_selected_range.
Qed.

Lemma selection_round_trip_witness :
  let nodes := text_nodes (render "The quick brown fox" [highlight 4 9 "green"]) in
  selects nodes (range_of nodes 2 12) 2 12
  /\ ∀ r, selects nodes r 2 12 ->
         handleTextSelection "doc" (Some (selection_on nodes r)) (Some nodes)
         = Some (Selected.mk (substring "The quick brown fox" 2 12) "doc" 2 12).
Proof.
  apply (selection_round_trip "The quick brown fox" [highlight 4 9 "green"]
           "doc" 2 12).
  - split; repeat constructor; simpl; lia.
  - lia.
  - lia.
  - simpl. lia.
  - discriminate.
Defined.

(** A selection that begins in the plain text before a highlight and ends
    in the plain text after it. *)
Example selection_across_segments :
  let nodes := text_nodes (render "The quick brown fox" [highlight 4 9 "green"]) in
  nodes = ["The "; "quick"; " brown fox"]
  /\ range_of nodes 2 12 = mkRange 0 2 2 3
  /\ handleTextSelection "doc"
       (Some (selection_on nodes (mkRange 0 2 2 3))) (Some nodes)
     = Some (Selected.mk "e quick br" "doc" 2 12).
Proof. done. Qed.

(** C3 fails as stated. A selection of the blank of ["a b"] is within the
    document and is dropped; and over the overlapping annotations [0,10)
    and [5,15) the selection of [content[10:15]] is translated to the
    offsets 15 and 20 of the rendered text. *)
Lemma selection_not_translated_back :
  (let nodes := text_nodes (render "a b" []) in
   let r := mkRange 0 1 0 2 in
   selects nodes r 1 2
   /\ Range_toString nodes r = substring "a b" 1 2
   /\ handleTextSelection "doc" (Some (selection_on nodes r)) (Some nodes)
      = None)
  /\ (let nodes :=
        text_nodes
          (render alphabet20 [highlight 0 10 "yellow"; highlight 5 15 "green"]) in
      let r := mkRange 1 5 1 10 in
      Range_toString nodes r = substring alphabet20 10 15
      /\ handleTextSelection "doc" (Some (selection_on nodes r)) (Some nodes)
         = Some (Selected.mk "klmno" "doc" 15 20)).
Proof.
  split; simpl.
  - split; [|done]. repeat split; simpl; lia.
  - done.
Qed.

(** * Further properties of the code *)

(** ** Grouping the annotations by document ([loadAnnotations]) *)

Section grouping_facts.
Implicit Types (acc g : gmap string (list Annotation.t)).
Implicit Types (data : list Annotation.t) (d : string).

Local Abbreviation of_document d :=
  (λ a : Annotation.t, Annotation.document_id a = d).

Lemma reduce_body_lookup acc a acc' d :
  reduce_body acc a = Some acc' ->
  default [] (acc' !! d)
  = default [] (acc !! d) ++ filter (of_document d) [a].
Proof.
  unfold reduce_body. rewrite filter_cons, filter_nil.
  destruct (acc !! Annotation.document_id a) as [array|] eqn:Hk.
  - intros [= <-]. case_decide as Hd.
    + subst d. by rewrite lookup_insert_eq, Hk.
    + by rewrite lookup_insert_ne, app_nil_r.
  - case_bool_decide; [done|]. intros [= <-]. case_decide as Hd.
    + subst d. by rewrite lookup_insert_eq, Hk.
    + by rewrite lookup_insert_ne, app_nil_r.
Qed.

Lemma reduce_body_no_empty acc a acc' :
  reduce_body acc a = Some acc' ->
  (∀ d, acc !! d ≠ Some []) -> ∀ d, acc' !! d ≠ Some [].
Proof.
  unfold reduce_body. intros Hb Hacc d.
  destruct (acc !! Annotation.document_id a) as [array|] eqn:Hk.
  - injection Hb as <-.
    destruct (decide (Annotation.document_id a = d)) as [<-|Hd].
    + rewrite lookup_insert_eq. intros [= H]. by destruct array.
    + by rewrite lookup_insert_ne.
  - case_bool_decide; [done|]. injection Hb as <-.
    destruct (decide (Annotation.document_id a = d)) as [<-|Hd].
    + by rewrite lookup_insert_eq.
    + by rewrite lookup_insert_ne.
Qed.

Lemma reduce_body_own_keys acc a acc' :
  reduce_body acc a = Some acc' ->
  (∀ d, d ∈ Object_prototype -> acc !! d = None) ->
  ∀ d, d ∈ Object_prototype -> acc' !! d = None.
Proof.
  unfold reduce_body. intros Hb Hacc d Hd.
  destruct (acc !! Annotation.document_id a) as [array|] eqn:Hk.
  - injection Hb as <-.
    destruct (decide (Annotation.document_id a = d)) as [<-|Hne].
    + by rewrite Hacc in Hk.
    + rewrite lookup_insert_ne by done. by apply Hacc.
  - case_bool_decide as Hp; [done|]. injection Hb as <-.
    destruct (decide (Annotation.document_id a = d)) as [<-|Hne]; [done|].
    rewrite lookup_insert_ne by done. by apply Hacc.
Qed.

Lemma reduce_from_lookup acc data g d :
  reduce_from acc data = Some g ->
  default [] (g !! d) = default [] (acc !! d) ++ filter (of_document d) data.
Proof.
  revert acc; induction data as [|a data IH]; intros acc; simpl.
  - intros [= <-]. by rewrite app_nil_r.
  - destruct (reduce_body acc a) as [acc'|] eqn:Hb; [|done].
    intros Hg. rewrite (IH _ Hg), (reduce_body_lookup _ _ _ _ Hb).
    rewrite <- app_assoc. f_equal.
    rewrite !filter_cons, filter_nil. by case_decide.
Qed.

Lemma reduce_from_no_empty acc data g :
  reduce_from acc data = Some g ->
  (∀ d, acc !! d ≠ Some []) -> ∀ d, g !! d ≠ Some [].
Proof.
  revert acc; induction data as [|a data IH]; intros acc; simpl.
  - by intros [= <-].
  - destruct (reduce_body acc a) as [acc'|] eqn:Hb; [|done].
    intros Hg Hacc. apply (IH _ Hg). by eapply reduce_body_no_empty.
Qed.

(** From an object without own properties named like a member of
    [Object.prototype], the reduction throws exactly when some row has
    such a [document_id]. *)
Lemma reduce_from_throws acc data :
  (∀ d, d ∈ Object_prototype -> acc !! d = None) ->
  reduce_from acc data = None
  <-> Exists (λ a, Annotation.document_id a ∈ Object_prototype) data.
Proof.
  revert acc; induction data as [|a data IH]; intros acc Hacc; simpl.
  - split; [done | by intros ?%Exists_nil].
  - rewrite Exists_cons.
    destruct (reduce_body acc a) as [acc'|] eqn:Hb.
    + rewrite IH by (by eapply reduce_body_own_keys). split; [tauto|].
      intros [Ha|?]; [|done]. unfold reduce_body in Hb.
      rewrite Hacc in Hb by done. by rewrite bool_decide_eq_true_2 in Hb.
    + split; [|done]. intros _. left. unfold reduce_body in Hb.
      destruct (acc !! Annotation.document_id a); [done|].
      by case_bool_decide.
Qed.

(** The grouping throws exactly when some row has a [document_id] that
    is a key of [Object.prototype]. *)
Theorem group_by_document_throws data :
  group_by_document data = None
  <-> Exists (λ a, Annotation.document_id a ∈ Object_prototype) data.
Proof. apply reduce_from_throws. intros d _. apply lookup_empty. Qed.

Lemma group_by_document_defined data :
  Forall (λ a, Annotation.document_id a ∉ Object_prototype) data ->
  ∃ g, group_by_document data = Some g.
Proof.
  intros Hall. destruct (group_by_document data) as [g|] eqn:Hg; [eauto|].
  apply reduce_from_throws in Hg; [|intros d _; apply lookup_empty].
  apply Exists_exists in Hg as (a & Ha & Hp).
  rewrite Forall_forall in Hall. by destruct (Hall a Ha).
Qed.

(** When no [document_id] is a key of [Object.prototype] (a uuid is
    none), the grouping gives every document id the rows that carry it, in
    the order of the response, and no empty array. *)
Theorem group_by_document_rows data :
  Forall (λ a, Annotation.document_id a ∉ Object_prototype) data ->
  ∃ g, group_by_document data = Some g
       /\ ∀ d, default [] (g !! d) = filter (of_document d) data
              /\ g !! d ≠ Some [].
Proof.
  intros Hall. destruct (group_by_document_defined data Hall) as [g Hg].
  exists g. split; [done|]. intros d. split.
  - rewrite (reduce_from_lookup ∅ data g d Hg). by rewrite lookup_empty.
  - apply (reduce_from_no_empty ∅ data g Hg). intros d'.
    by rewrite lookup_empty.
Qed.

(** After a load, a document (its id, a uuid, is no key of
    [Object.prototype]) is rendered with the rows of the response that
    carry its id, and with no others. *)
Theorem loadAnnotations_render user data annotations doc :
  Forall (λ a, Annotation.document_id a ∉ Object_prototype) data ->
  Document.id doc ∉ Object_prototype ->
  fst <$> renderDocumentWithHighlights
            (loadAnnotations (Some user) (Some data) annotations) doc
  = Some (render (Document.content doc)
                 (filter (of_document (Document.id doc)) data)).
Proof.
  intros Hall Hid. destruct (group_by_document_defined data Hall) as [g Hg].
  unfold loadAnnotations, renderDocumentWithHighlights. rewrite Hg. simpl.
  pose proof (reduce_from_lookup ∅ data g (Document.id doc) Hg) as Hrows.
  rewrite lookup_empty in Hrows. simpl in Hrows.
  destruct (g !! Document.id doc) as [rows|] eqn:Hd; simpl in Hrows.
  - by rewrite <- Hrows.
  - rewrite bool_decide_eq_false_2 by done. by rewrite <- Hrows.
Qed.

End grouping_facts.

Lemma group_by_document_rows_witness :
  let data := [Annotation.mk "a1" "d1" "" "" 4 9 None;
               Annotation.mk "a2" "d2" "" "" 0 3 None;
               Annotation.mk "a3" "d1" "" "" 0 2 None] in
  ∃ g, group_by_document data = Some g
       /\ ∀ d, default [] (g !! d)
              = filter (λ a, Annotation.document_id a = d) data
              /\ g !! d ≠ Some [].
Proof.
  apply (group_by_document_rows
           [Annotation.mk "a1" "d1" "" "" 4 9 None;
            Annotation.mk "a2" "d2" "" "" 0 3 None;
            Annotation.mk "a3" "d1" "" "" 0 2 None]).
  repeat first [apply Forall_nil_2 | apply Forall_cons_2];
    by apply (bool_decide_eq_false_1 (_ ∈ Object_prototype)).
Defined.

Lemma loadAnnotations_render_witness :
  let data := [Annotation.mk "a1" "d1" "" "" 4 9 None;
               Annotation.mk "a2" "d2" "" "" 0 3 None;
               Annotation.mk "a3" "d1" "" "" 0 2 None] in
  let doc := Document.mk "d1" "Fox" "The quick brown fox" [] in
  fst <$> renderDocumentWithHighlights
            (loadAnnotations (Some "u") (Some data) ∅) doc
  = Some (render (Document.content doc)
                 (filter (λ a, Annotation.document_id a = Document.id doc) data)).
Proof.
  apply (loadAnnotations_render "u"
           [Annotation.mk "a1" "d1" "" "" 4 9 None;
            Annotation.mk "a2" "d2" "" "" 0 3 None;
            Annotation.mk "a3" "d1" "" "" 0 2 None]
           ∅ (Document.mk "d1" "Fox" "The quick brown fox" [])).
  - repeat first [apply Forall_nil_2 | apply Forall_cons_2];
      by apply (bool_decide_eq_false_1 (_ ∈ Object_prototype)).
  - by apply (bool_decide_eq_false_1 (_ ∈ Object_prototype)).
Defined.

(** Under an id that is a key of [Object.prototype] the inherited member
    is read in place of an array: the rendering throws, unless the
    member's [length] is 0, when the bare text is shown. *)
Example renderDocumentWithHighlights_prototype_key :
  renderDocumentWithHighlights ∅ (Document.mk "constructor" "T" "text" []) = None
  /\ renderDocumentWithHighlights ∅ (Document.mk "__proto__" "T" "text" []) = None
  /\ renderDocumentWithHighlights ∅ (Document.mk "toString" "T" "text" [])
     = Some (Text "text", ∅).
Proof. by vm_compute. Qed.

(** ** What the selection translator hands on *)

Lemma all_white_space_empty s :
  all_white_space s = false -> (0 < String.length s)%nat.
Proof. destruct s; simpl; [done | lia]. Qed.

(** Whatever the selection and the container, a range that the handler
    stores is never empty: its text has a code unit that is no white
    space, [start] is not negative, and [end] lies exactly the length of
    the text after [start]. *)
Theorem handleTextSelection_range docId getSelection getElementById s :
  handleTextSelection docId getSelection getElementById = Some s ->
  Selected.docId s = docId
  /\ all_white_space (Selected.text s) = false
  /\ 0 <= Selected.start s
  /\ Selected.start s < Selected.end_ s
  /\ Selected.end_ s
     = Selected.start s + Z.of_nat (String.length (Selected.text s)).
Proof.
  unfold handleTextSelection.
  destruct getSelection as [selection|]; [|done].
  case_bool_decide as Htrim; [done|].
  destruct getElementById as [container|]; [|done].
  intros [= <-]. simpl.
  assert (all_white_space (toString selection) = false) as Hw.
  { destruct (all_white_space (toString selection)) eqn:Hw; [|done].
    by apply trim_empty_iff in Hw. }
  apply all_white_space_empty in Hw as Hlen. repeat split; try done; lia.
Qed.

Lemma handleTextSelection_range_witness :
  let nodes := ["The "; "quick"; " brown fox"] in
  let s := Selected.mk "e quick br" "doc" 2 12 in
  Selected.docId s = "doc"
  /\ all_white_space (Selected.text s) = false
  /\ 0 <= Selected.start s
  /\ Selected.start s < Selected.end_ s
  /\ Selected.end_ s
     = Selected.start s + Z.of_nat (String.length (Selected.text s)).
Proof.
  apply (handleTextSelection_range "doc"
           (Some (selection_on ["The "; "quick"; " brown fox"] (mkRange 0 2 2 3)))
           (Some ["The "; "quick"; " brown fox"])).
  reflexivity.
Defined.




(** ** Saving a selection and rendering it *)

(** From selection to highlight: over a valid, non-overlapping annotation
    set, the row saved for a selection of [content[start:end_]] lies within
    the document, is not empty, and carries that text as
    [highlighted_text]; and every later rendering of an annotation list
    that holds the row shows it as a highlighted segment with exactly that
    text, whatever else the list has come to hold. *)
Theorem saved_selection_is_highlighted
    content docAnnotations docId r start end_ user id note color :
  non_overlapping content docAnnotations ->
  0 <= start -> start < end_ -> end_ <= Z.of_nat (String.length content) ->
  selects (text_nodes (render content docAnnotations)) r start end_ ->
  trim (substring content start end_) ≠ "" ->
  ∃ saved,
    (handleTextSelection docId
       (Some (selection_on (text_nodes (render content docAnnotations)) r))
       (Some (text_nodes (render content docAnnotations)))
     ≫= λ s, AnnotationForm_handleSubmit (Some user) id s note color)
    = Some saved
    /\ in_range content saved
    /\ Annotation.position_start saved = start
    /\ Annotation.position_end saved = end_
    /\ Annotation.document_id saved = docId
    /\ Annotation.highlighted_text saved = substring content start end_
    /\ ∀ later, saved ∈ later ->
         mark (Annotation.highlighted_text saved) saved
         ∈ segments_of (render content later).
Proof.
  intros Hanns H0 Hlt Hlen Hsel Htrim.
  rewrite (translate_selected_range content docAnnotations docId r start end_)
    by done.
  eexists. split; [reflexivity|]. simpl.
  split; [unfold in_range; simpl; lia|]. repeat split.
  intros later Hin.
  set (saved := Annotation.mk _ _ _ _ _ _ _) in *.
  assert (highlight_of content saved
          ∈ highlight_of content <$> Array_sort by_position_start later) as Hm.
  { apply list_elem_of_fmap_2. by rewrite Array_sort_perm. }
  rewrite <- render_highlighted in Hm.
  by apply list_elem_of_filter in Hm as [_ Hm].
Qed.

Lemma saved_selection_is_highlighted_witness :
  let content := "The quick brown fox" in
  let docAnnotations := [highlight 4 9 "green"] in
  ∃ saved,
    (handleTextSelection "doc"
       (Some (selection_on (text_nodes (render content docAnnotations))
                           (mkRange 2 1 2 6)))
       (Some (text_nodes (render content docAnnotations)))
     ≫= λ s, AnnotationForm_handleSubmit (Some "u") "a2" s "note" "pink")
    = Some saved
    /\ in_range content saved
    /\ Annotation.position_start saved = 10
    /\ Annotation.position_end saved = 15
    /\ Annotation.document_id saved = "doc"
    /\ Annotation.highlighted_text saved = substring content 10 15
    /\ ∀ later, saved ∈ later ->
         mark (Annotation.highlighted_text saved) saved
         ∈ segments_of (render content later).
Proof.
  apply (saved_selection_is_highlighted "The quick brown fox"
           [highlight 4 9 "green"] "doc" (mkRange 2 1 2 6) 10 15
           "u" "a2" "note" "pink").
  - split; repeat constructor; simpl; lia.
  - lia.
  - lia.
  - simpl. lia.
  - repeat split; simpl; lia.
  - discriminate.
Defined.

(** The form stores one of five colour names, and the highlight of a
    saved row is drawn in the colour of the swatch that the form showed
    for the name: the table of the form and the table of the viewer
    agree, and none of the names falls through to the default. *)
Theorem swatch_is_highlight_color name bg user id s note :
  (name, bg) ∈ AnnotationForm_colors ->
  ∃ saved,
    AnnotationForm_handleSubmit (Some user) id s note name = Some saved
    /\ backgroundColor (mark (Annotation.highlighted_text saved) saved)
       = JSString bg
    /\ colors !! name = Some bg.
Proof.
  intros Hin. eexists. split; [reflexivity|].
  unfold backgroundColor. simpl.
  unfold AnnotationForm_colors in Hin.
  rewrite !elem_of_cons, elem_of_nil in Hin.
  destruct Hin as [[= -> ->]|[[= -> ->]|[[= -> ->]|[[= -> ->]|[[= -> ->]|[]]]]]];
    by vm_compute.
Qed.

Lemma swatch_is_highlight_color_witness :
  ∃ saved,
    AnnotationForm_handleSubmit (Some "u") "a1"
      (Selected.mk "quick" "doc" 4 9) "" "pink" = Some saved
    /\ backgroundColor (mark (Annotation.highlighted_text saved) saved)
       = JSString "#fbcfe8"
    /\ colors !! "pink" = Some "#fbcfe8".
Proof.
  apply (swatch_is_highlight_color "pink" "#fbcfe8" "u" "a1"
           (Selected.mk "quick" "doc" 4 9) "").
  apply (bool_decide_eq_true_1 (_ ∈ AnnotationForm_colors)). reflexivity.
Defined.

(** ** The rendering and the order of the stored rows *)

Lemma filter_start_at_most_one (l : list Annotation.t) k :
  NoDup (Annotation.position_start <$> l) ->
  (length (filter (λ a, Annotation.position_start a = k) l) <= 1)%nat.
Proof.
  induction l as [|a l IH]; simpl; [lia|].
  rewrite NoDup_cons. intros [Hnotin Hnd]. rewrite filter_cons.
  case_decide as Hk; [|by apply IH]. simpl.
  destruct (filter (λ a, Annotation.position_start a = k) l) as [|b l'] eqn:Hf;
    [simpl; lia|].
  assert (b ∈ filter (λ a, Annotation.position_start a = k) l) as Hb
    by (rewrite Hf; left).
  apply list_elem_of_filter in Hb as [Hbk Hb].
  destruct Hnotin. rewrite Hk, <- Hbk. by apply list_elem_of_fmap_2.
Qed.

Lemma Permutation_at_most_one {A} (l1 l2 : list A) :
  l1 ≡ₚ l2 -> (length l1 <= 1)%nat -> l1 = l2.
Proof.
  intros Hp Hlen. destruct l1 as [|x [|y l1]]; simpl in Hlen; [| |lia].
  - by apply Permutation_nil_l in Hp.
  - by apply Permutation_singleton_l in Hp.
Qed.

(** The order in which the rows arrive (the query asks for none) does not
    show: two arrangements of the same annotations, no two of which begin
    at the same position, are rendered alike. *)
Theorem render_any_order content (l1 l2 : list Annotation.t) :
  l1 ≡ₚ l2 ->
  NoDup (Annotation.position_start <$> l1) ->
  render content l1 = render content l2.
Proof.
  intros Hp Hnd.
  assert (Array_sort by_position_start l1 = Array_sort by_position_start l2)
    as Hsort.
  { apply stable_sorted_unique; [apply Array_sort_sorted..|].
    intros k. rewrite !Array_sort_stable.
    apply Permutation_at_most_one; [by rewrite Hp|].
    by apply filter_start_at_most_one. }
  unfold render. by rewrite Hsort, (Permutation_length Hp).
Qed.

Lemma render_any_order_witness :
  render "The quick brown fox"
    [highlight 10 15 "yellow"; highlight 4 9 "green"; highlight 0 3 "blue"]
  = render "The quick brown fox"
      [highlight 0 3 "blue"; highlight 10 15 "yellow"; highlight 4 9 "green"].
Proof.
  apply (render_any_order "The quick brown fox"
           [highlight 10 15 "yellow"; highlight 4 9 "green"; highlight 0 3 "blue"]
           [highlight 0 3 "blue"; highlight 10 15 "yellow"; highlight 4 9 "green"]).
  - symmetry. apply (Permutation_cons_append [_; _] _).
  - apply (bool_decide_unpack _). reflexivity.
Defined.

(** With a tie the order shows: the cursor follows the row that comes
    last. *)
Example render_tie_order :
  rendered_text
    (render "abcdefghij" [highlight 2 3 "pink"; highlight 2 8 "blue"])
  = "abccdefghij"
  /\ rendered_text
       (render "abcdefghij" [highlight 2 8 "blue"; highlight 2 3 "pink"])
     = "abcdefghcdefghij".
Proof. done. Qed.

(** ** Which code units are highlighted *)

Section mask_facts.
Context (content : string).

Local Abbreviation len := (Z.of_nat (String.length content)).

Lemma highlight_mask_app l1 l2 :
  highlight_mask (l1 ++ l2) = highlight_mask l1 ++ highlight_mask l2.
Proof. apply bind_app. Qed.

Lemma highlight_mask_cons seg l :
  highlight_mask (seg :: l)
  = replicate (String.length (text seg)) (highlighted seg) ++ highlight_mask l.
Proof. reflexivity. Qed.

Lemma fmap_seqZ_const (f : Z -> bool) m n b :
  (∀ p, m <= p < m + n -> f p = b) ->
  f <$> seqZ m n = replicate (Z.to_nat n) b.
Proof.
  intros Hf. symmetry. apply replicate_as_Forall. split.
  - by rewrite length_fmap, length_seqZ.
  - apply Forall_fmap, Forall_forall. intros p Hp.
    apply elem_of_seqZ in Hp. simpl. by rewrite Hf.
Qed.

Lemma annotated_cons a hs p :
  annotated (a :: hs) p
  <-> Annotation.position_start a <= p < Annotation.position_end a
      \/ annotated hs p.
Proof. unfold annotated. apply Exists_cons. Qed.

(** Under the conditions of [walk_prefix], the walk from the cursor [L]
    highlights, between [L] and the final cursor, exactly the positions
    that lie in an annotation, and no annotation reaches outside. *)
Lemma walk_mask L hs :
  0 <= L <= len ->
  Forall (in_range content) hs ->
  Forall (λ a, L <= Annotation.position_start a) hs ->
  StronglySorted precedes hs ->
  highlight_mask (walk content L hs).1
  = (λ p, bool_decide (annotated hs p)) <$> seqZ L ((walk content L hs).2 - L)
  /\ L <= (walk content L hs).2 <= len
  /\ ∀ p, annotated hs p -> L <= p < (walk content L hs).2.
Proof.
  revert L; induction hs as [|a hs IH]; intros L HL Hin Hge Hs.
  { simpl. rewrite Z.sub_diag. split; [done|]. split; [lia|].
    intros p Hp. by apply Exists_nil in Hp. }
  apply Forall_cons in Hin as [(Ha0 & Hae & Hal) Hin].
  apply Forall_cons in Hge as [HLa _].
  apply StronglySorted_inv in Hs as [Hs Hpre].
  destruct (IH (Annotation.position_end a)) as (IHm & IHf & IHa);
    [lia | done | exact Hpre | done |].
  rewrite walk_cons. cbn [fst snd].
  set (s := Annotation.position_start a) in *.
  set (e := Annotation.position_end a) in *.
  set (final := (walk content e hs).2) in *.
  split; [|split; [lia|]].
  - rewrite highlight_mask_app, highlight_mask_cons, IHm.
    replace (final - L) with ((s - L) + ((e - s) + (final - e))) by lia.
    rewrite !seqZ_app by lia. rewrite !fmap_app.
    replace (L + (s - L)) with s by lia.
    replace (s + (e - s)) with e by lia.
    f_equal; [|f_equal].
    + rewrite (fmap_seqZ_const _ L (s - L) false).
      * case_bool_decide as Hgap.
        -- rewrite highlight_mask_cons. simpl.
           rewrite length_substring_in_range by lia. apply app_nil_r.
        -- by replace (s - L) with 0 by lia.
      * intros p Hp. apply bool_decide_eq_false_2.
        rewrite annotated_cons. intros [?|Hrest]; [lia|].
        apply IHa in Hrest. lia.
    + unfold highlight_of. simpl.
      rewrite length_substring_in_range by lia.
      symmetry. apply fmap_seqZ_const. intros p Hp.
      apply bool_decide_eq_true_2. rewrite annotated_cons. left. lia.
    + apply list_fmap_ext. intros _ p Hp%list_elem_of_lookup_2.
      apply elem_of_seqZ in Hp. apply bool_decide_ext.
      rewrite annotated_cons. split; [tauto|]. intros [?|?]; [lia | done].
  - intros p. rewrite annotated_cons. intros [?|Hrest]; [lia|].
    apply IHa in Hrest. lia.
Qed.

(** Over a valid, non-overlapping annotation set the rendering highlights
    exactly the annotated code units: position by position through the
    rendered text, a code unit stands in a highlighted segment exactly
    when its position lies in the range of some annotation. *)
Theorem highlighted_exactly_annotated docAnnotations :
  non_overlapping content docAnnotations ->
  highlight_mask (segments_of (render content docAnnotations))
  = (λ p, bool_decide (annotated docAnnotations p)) <$> seqZ 0 len.
Proof.
  intros [Hin Hsorted]. rewrite segments_of_render.
  case_bool_decide as Hnil.
  { subst. rewrite highlight_mask_cons. simpl. rewrite app_nil_r.
    symmetry. rewrite <- (Nat2Z.id (String.length content)) at 2.
    apply fmap_seqZ_const. by intros p _. }
  set (hs := Array_sort by_position_start docAnnotations) in *.
  assert (∀ p, annotated docAnnotations p <-> annotated hs p) as Hperm.
  { intros p. unfold annotated. rewrite !Exists_exists. subst hs.
    by setoid_rewrite (Array_sort_perm docAnnotations). }
  assert (Forall (in_range content) hs) as Hin'
    by (subst hs; by rewrite Array_sort_perm).
  destruct (walk_mask 0 hs) as (Hm & Hfin & Hann); [lia | done | | done |].
  { eapply Forall_impl; [exact Hin'|]. by intros a (? & _). }
  set (final := (walk content 0 hs).2) in *.
  rewrite highlight_mask_app, Hm, Z.sub_0_r.
  replace (seqZ 0 len) with (seqZ 0 (final + (len - final)))
    by (f_equal; lia).
  rewrite seqZ_app, fmap_app by lia. f_equal.
  - apply list_fmap_ext. intros _ p _. apply bool_decide_ext. by rewrite Hperm.
  - rewrite Z.add_0_l.
    rewrite (fmap_seqZ_const _ final (len - final) false).
    + unfold trailing. case_bool_decide as Hlt.
      * rewrite highlight_mask_cons. simpl. rewrite app_nil_r.
        rewrite substring_from_drop, StrFacts.length_drop by lia.
        f_equal. lia.
      * by replace (len - final) with 0 by lia.
    + intros p Hp. apply bool_decide_eq_false_2.
      rewrite Hperm. intros Hp'%Hann. lia.
Qed.

End mask_facts.

Lemma highlighted_exactly_annotated_witness :
  let content := "The quick brown fox" in
  let docAnnotations := [highlight 10 15 "yellow"; highlight 4 9 "green"] in
  highlight_mask (segments_of (render content docAnnotations))
  = (λ p, bool_decide (annotated docAnnotations p))
    <$> seqZ 0 (Z.of_nat (String.length content)).
Proof.
  apply (highlighted_exactly_annotated "The quick brown fox"
           [highlight 10 15 "yellow"; highlight 4 9 "green"]).
  split.
  - repeat constructor; simpl; lia.
  - repeat constructor; unfold precedes; simpl; lia.
Defined.

(** ** The viewer selector *)

Section selector_facts.
Implicit Types (selectedDocs : list Document.t) (doc d : Document.t).

Local Abbreviation same_id doc := (λ d : Document.t, Document.id d = Document.id doc).

Lemma NoDup_fmap_filter {A B} (f : A -> B) (P : A -> Prop)
    `{∀ x, Decision (P x)} (l : list A) :
  NoDup (f <$> l) -> NoDup (f <$> filter P l).
Proof.
  induction l as [|x l IH]; simpl; [done|].
  rewrite NoDup_cons. intros [Hx Hl]. rewrite filter_cons.
  case_decide; [|by apply IH]. simpl. apply NoDup_cons. split; [|by apply IH].
  intros Hin. apply Hx. apply list_elem_of_fmap in Hin as (y & -> & Hy).
  apply list_elem_of_filter in Hy as [_ Hy]. by apply list_elem_of_fmap_2.
Qed.

(** [toggleDocument] keeps the selection within its bounds: from at most
    three documents with different ids it gives at most three documents
    with different ids. *)
Theorem toggleDocument_bounds selectedDocs doc :
  NoDup (Document.id <$> selectedDocs) ->
  (length selectedDocs <= 3)%nat ->
  NoDup (Document.id <$> toggleDocument selectedDocs doc)
  /\ (length (toggleDocument selectedDocs doc) <= 3)%nat.
Proof.
  intros Hnd Hlen. unfold toggleDocument.
  case_bool_decide as Hfound.
  - split; [by apply NoDup_fmap_filter|].
    pose proof (length_filter (λ d, Document.id d ≠ Document.id doc) selectedDocs).
    lia.
  - case_bool_decide as Hroom; [|done]. split.
    + rewrite fmap_app. apply NoDup_app. split; [done|]. split.
      * intros x Hx Hdoc. apply list_elem_of_singleton in Hdoc. subst x.
        apply Hfound. apply list_elem_of_fmap in Hx as (d & Hd & Hin).
        apply Exists_exists. by exists d.
      * apply NoDup_singleton.
    + rewrite length_app. simpl. lia.
Qed.

Lemma toggleDocument_bounds_witness :
  let selectedDocs := [Document.mk "d1" "A" "a" []; Document.mk "d2" "B" "b" []] in
  let doc := Document.mk "d3" "C" "c" [] in
  NoDup (Document.id <$> toggleDocument selectedDocs doc)
  /\ (length (toggleDocument selectedDocs doc) <= 3)%nat.
Proof.
  apply (toggleDocument_bounds
           [Document.mk "d1" "A" "a" []; Document.mk "d2" "B" "b" []]
           (Document.mk "d3" "C" "c" [])).
  - apply (bool_decide_unpack _). reflexivity.
  - simpl. lia.
Defined.

(** What a toggle does: afterwards the document's id is selected exactly
    when it was not before and fewer than three documents were selected;
    the documents with another id stay as they were, selected or not. *)
Theorem toggleDocument_effect selectedDocs doc :
  (Exists (same_id doc) (toggleDocument selectedDocs doc)
   <-> ¬ Exists (same_id doc) selectedDocs /\ (length selectedDocs < 3)%nat)
  /\ ∀ d, Document.id d ≠ Document.id doc ->
          (d ∈ toggleDocument selectedDocs doc <-> d ∈ selectedDocs).
Proof.
  unfold toggleDocument. case_bool_decide as Hfound.
  - split.
    + split; [|tauto]. intros Hex. apply Exists_exists in Hex as (d & Hd & Hid).
      by apply list_elem_of_filter in Hd as [Hne _].
    + intros d Hd. rewrite list_elem_of_filter. tauto.
  - case_bool_decide as Hroom.
    + split.
      * split; [done|]. intros _. apply Exists_app. right. by constructor.
      * intros d Hd. rewrite elem_of_app, list_elem_of_singleton.
        split; [|tauto]. intros [?| ->]; done.
    + split; [|done]. split; [done | tauto].
Qed.

Lemma selector_step_length selectedDocs e selectedDocs' :
  (length selectedDocs <= 1)%nat ->
  selector_step selectedDocs e = Some selectedDocs' ->
  (length selectedDocs' <= 1)%nat.
Proof.
  intros Hlen. destruct e as [doc|]; simpl.
  - case_bool_decide as Hshown; [done|].
    destruct selectedDocs; [|simpl in Hshown; lia]. simpl.
    intros [= <-]. simpl. lia.
  - case_bool_decide; [|done]. intros [= <-]. simpl. lia.
Qed.

(** Through the selector's own controls the viewer is never opened on
    more than one document: once a document is selected the component
    shows the viewer in place of the grid, and the viewer can only be
    closed, which empties the selection. *)
Theorem selector_run_single es selectedDocs :
  selector_run [] es = Some selectedDocs ->
  (length selectedDocs <= 1)%nat.
Proof.
  assert (∀ start, (length start <= 1)%nat ->
            selector_run start es = Some selectedDocs ->
            (length selectedDocs <= 1)%nat) as Hgen.
  { induction es as [|e es IH]; intros start Hlen; simpl.
    - by intros [= <-].
    - destruct (selector_step start e) as [next|] eqn:Hstep; [|done].
      apply IH. by eapply selector_step_length. }
  apply Hgen. simpl. lia.
Qed.

End selector_facts.

Lemma selector_run_single_witness :
  (length [Document.mk "d2" "B" "b" []] <= 1)%nat.
Proof.
  apply (selector_run_single
           [ClickDocument (Document.mk "d1" "A" "a" []); CloseViewer;
            ClickDocument (Document.mk "d2" "B" "b" [])]).
  reflexivity.
Defined.

(** A second click is not on offer while the viewer is shown. *)
Example second_document_not_on_offer :
  selector_run []
    [ClickDocument (Document.mk "d1" "A" "a" []);
     ClickDocument (Document.mk "d2" "B" "b" [])]
  = None.
Proof. reflexivity. Qed.

(** ** [Array_sort] under any comparator that follows a total preorder *)

Section sort_by_order.
Context {A : Type} (comparefn : A -> A -> Z) (R : relation A).
Context `{!Transitive R}.
Hypothesis after : ∀ x y, 0 < comparefn x y -> R y x.
Hypothesis before : ∀ x y, ¬ 0 < comparefn x y -> R x y.

Lemma sort_insert_Permutation x l : sort_insert comparefn x l ≡ₚ x :: l.
Proof.
  induction l as [|y l IH]; simpl; [done|].
  case_bool_decide; [|done]. by rewrite IH, Permutation_swap.
Qed.

Lemma Array_sort_Permutation l : Array_sort comparefn l ≡ₚ l.
Proof.
  induction l as [|x l IH]; simpl; [done|].
  by rewrite sort_insert_Permutation, IH.
Qed.

Lemma sort_insert_StronglySorted x l :
  StronglySorted R l -> StronglySorted R (sort_insert comparefn x l).
Proof.
  induction 1 as [|y l Hl IH Hy]; simpl; [repeat constructor|].
  case_bool_decide as Hxy.
  - constructor; [done|]. rewrite sort_insert_Permutation.
    constructor; [by apply after | done].
  - constructor; [by constructor|]. constructor; [by apply before|].
    eapply Forall_impl; [exact Hy|]. intros z Hz. simpl in Hz.
    transitivity y; [by apply before | done].
Qed.

Lemma Array_sort_StronglySorted l : StronglySorted R (Array_sort comparefn l).
Proof.
  induction l as [|x l IH]; simpl; [constructor|].
  by apply sort_insert_StronglySorted.
Qed.

End sort_by_order.

(** ** The document list: tags *)

Section tag_facts.
Implicit Types (tags prev : list string) (tag t : string).
Implicit Types (documents : list Document.t).

Lemma Set_add_elem_of tags tag t :
  t ∈ Set_add tags tag <-> t ∈ tags \/ t = tag.
Proof.
  unfold Set_add. case_bool_decide as Hin.
  - split; [tauto|]. intros [?| ->]; done.
  - by rewrite elem_of_app, list_elem_of_singleton.
Qed.

Lemma Set_add_NoDup tags tag : NoDup tags -> NoDup (Set_add tags tag).
Proof.
  unfold Set_add. case_bool_decide as Hin; [done|]. intros Hnd.
  apply NoDup_app. split; [done|]. split; [|apply NoDup_singleton].
  intros x Hx ->%list_elem_of_singleton. done.
Qed.

Lemma foldl_Set_add tags new t :
  (t ∈ foldl Set_add tags new <-> t ∈ tags \/ t ∈ new)
  /\ (NoDup tags -> NoDup (foldl Set_add tags new)).
Proof.
  revert tags; induction new as [|tag new IH]; intros tags; simpl.
  - split; [|done]. rewrite elem_of_nil. tauto.
  - destruct (IH (Set_add tags tag)) as [IH1 IH2]. split.
    + rewrite IH1, Set_add_elem_of, elem_of_cons. tauto.
    + intros Hnd. by apply IH2, Set_add_NoDup.
Qed.

Lemma collect_tags_spec documents tags t :
  (t ∈ foldl (λ tags doc, foldl Set_add tags (Document.tags doc)) tags documents
   <-> t ∈ tags \/ ∃ doc, doc ∈ documents /\ t ∈ Document.tags doc)
  /\ (NoDup tags ->
      NoDup (foldl (λ tags doc, foldl Set_add tags (Document.tags doc))
                   tags documents)).
Proof.
  revert tags; induction documents as [|doc documents IH]; intros tags; simpl.
  - split; [|done]. split; [tauto|]. intros [?|(doc & Hd & _)]; [done|].
    by apply elem_of_nil in Hd.
  - destruct (IH (foldl Set_add tags (Document.tags doc))) as [IH1 IH2].
    destruct (foldl_Set_add tags (Document.tags doc) t) as [H1 H2].
    split.
    + rewrite IH1, H1. split.
      * intros [[?|?]|(d & Hd & Ht)]; [by left | |].
        -- right. exists doc. split; [left | done].
        -- right. exists d. split; [by right | done].
      * intros [?|(d & Hd & Ht)]; [by left; left|].
        apply elem_of_cons in Hd as [->|Hd]; [by left; right|].
        right. by exists d.
    + intros Hnd. apply IH2. by apply (foldl_Set_add tags (Document.tags doc) t).
Qed.

Lemma default_compare_after x y : 0 < default_compare x y -> String.le y x.
Proof.
  unfold default_compare, String.le, String.leb.
  rewrite (String.compare_antisym x y).
  destruct (String.compare y x); simpl; [lia | done | lia].
Qed.

Lemma default_compare_before x y : ¬ 0 < default_compare x y -> String.le x y.
Proof.
  unfold default_compare, String.le, String.leb.
  destruct (String.compare x y); [done | done | lia].
Qed.

Lemma StronglySorted_strict tags :
  StronglySorted String.le tags -> NoDup tags ->
  StronglySorted (λ x y, String.compare x y = Lt) tags.
Proof.
  induction 1 as [|x l Hl IH Hx]; [constructor|].
  rewrite NoDup_cons. intros [Hnotin Hnd]. constructor; [by apply IH|].
  rewrite Forall_forall in Hx. apply Forall_forall. intros y Hy.
  specialize (Hx y Hy). unfold String.le, String.leb in Hx.
  destruct (String.compare x y) eqn:Hc; [|done|done].
  apply String.compare_eq_iff in Hc. by subst.
Qed.

(** The tag buttons: every tag of every document appears once, no other
    string appears, and the tags stand in strictly ascending order of
    their code units. *)
Theorem allTags_sorted_set documents :
  StronglySorted (λ x y, String.compare x y = Lt) (allTags documents)
  /\ ∀ t, t ∈ allTags documents
          <-> ∃ doc, doc ∈ documents /\ t ∈ Document.tags doc.
Proof.
  unfold allTags.
  set (collected := foldl _ [] documents).
  pose proof (Array_sort_Permutation default_compare collected) as Hp.
  split.
  - apply StronglySorted_strict.
    + apply Array_sort_StronglySorted.
      * apply _.
      * apply default_compare_after.
      * apply default_compare_before.
    + rewrite Hp. apply (collect_tags_spec documents [] ""). constructor.
  - intros t. rewrite Hp. subst collected.
    rewrite (proj1 (collect_tags_spec documents [] t)).
    rewrite elem_of_nil. tauto.
Qed.

Example allTags_example :
  allTags [Document.mk "d1" "A" "" ["ml"; "bio"];
           Document.mk "d2" "B" "" ["chem"; "bio"; "ML"]]
  = ["ML"; "bio"; "chem"; "ml"].
Proof. reflexivity. Qed.

(** A toggle flips the tag in question and no other; a selection without
    duplicates stays one. *)
Theorem toggleTag_effect prev tag :
  (tag ∈ toggleTag prev tag <-> tag ∉ prev)
  /\ (∀ t, t ≠ tag -> (t ∈ toggleTag prev tag <-> t ∈ prev))
  /\ (NoDup prev -> NoDup (toggleTag prev tag)).
Proof.
  unfold toggleTag. case_bool_decide as Hin.
  - split; [|split].
    + rewrite list_elem_of_filter. tauto.
    + intros t Ht. rewrite list_elem_of_filter. tauto.
    + apply NoDup_filter.
  - split; [|split].
    + rewrite elem_of_app, list_elem_of_singleton. tauto.
    + intros t Ht. rewrite elem_of_app, list_elem_of_singleton. tauto.
    + intros Hnd. apply NoDup_app. split; [done|].
      split; [|apply NoDup_singleton].
      intros x Hx ->%list_elem_of_singleton. done.
Qed.

Lemma filter_other_id prev tag :
  tag ∉ prev -> filter (λ t, t ≠ tag) prev = prev.
Proof.
  induction prev as [|t prev IH]; [done|].
  rewrite not_elem_of_cons. intros [Hne Hnot].
  rewrite filter_cons_True by done. by rewrite IH.
Qed.

(** Selecting a tag and deselecting it again leaves the selection as it
    was, order included. *)
Theorem toggleTag_twice prev tag :
  tag ∉ prev -> toggleTag (toggleTag prev tag) tag = prev.
Proof.
  intros Hnot. unfold toggleTag at 2.
  rewrite bool_decide_eq_false_2 by done. unfold toggleTag.
  rewrite bool_decide_eq_true_2 by (apply elem_of_app; right; by left).
  rewrite filter_app, filter_cons_False, filter_nil, app_nil_r by tauto.
  by apply filter_other_id.
Qed.

End tag_facts.

Lemma toggleTag_twice_witness :
  toggleTag (toggleTag ["bio"; "chem"] "ml") "ml" = ["bio"; "chem"].
Proof.
  apply (toggleTag_twice ["bio"; "chem"] "ml").
  apply (bool_decide_eq_false_1 (_ ∈ _)). reflexivity.
Defined.

(** ** The document list: search *)

Section search_facts.
Implicit Types (s q : string) (doc : Document.t).
Implicit Types (documents : list Document.t) (selectedTags : list string).

Lemma prefix_app q s : String.prefix q (q +:+ s) = true.
Proof.
  induction q as [|c q IH]; [by destruct s|].
  rewrite StrFacts.app_cons. simpl. by destruct (ascii_dec c c).
Qed.

Lemma prefix_inv q s : String.prefix q s = true -> ∃ post, s = q +:+ post.
Proof.
  revert s; induction q as [|c q IH]; intros s.
  - intros _. by exists s.
  - destruct s as [|d s]; simpl; [done|].
    destruct (ascii_dec c d) as [->|]; [|done].
    intros [post ->]%IH. by exists post.
Qed.

Lemma includes_nil q : includes "" q = String.prefix q "" || false.
Proof. reflexivity. Qed.

Lemma includes_cons c s q :
  includes (String c s) q = String.prefix q (String c s) || includes s q.
Proof. reflexivity. Qed.

(** [includes] finds the search string exactly where it occurs. *)
Lemma includes_spec s q :
  includes s q = true <-> ∃ pre post, s = pre +:+ q +:+ post.
Proof.
  split.
  - induction s as [|c s IH].
    + rewrite includes_nil, orb_false_r.
      intros [post ->]%prefix_inv. by exists "", post.
    + rewrite includes_cons. intros [Hp|Hi]%orb_true_iff.
      * apply prefix_inv in Hp as [post ->]. by exists "", post.
      * destruct (IH Hi) as (pre & post & ->). by exists (String c pre), post.
  - intros (pre & post & ->). induction pre as [|c pre IH].
    + rewrite StrFacts.app_nil_l.
      pose proof (prefix_app q post) as Hp.
      destruct (q +:+ post) as [|d rest].
      * by rewrite includes_nil, Hp.
      * by rewrite includes_cons, Hp.
    + rewrite StrFacts.app_cons, includes_cons, IH. apply orb_true_r.
Qed.

(** The list shown is the list loaded with some documents left out:
    nothing is added or moved; and with an empty query and no tag selected
    nothing is left out. This holds whatever [toLowerCase] does to the
    titles and contents, the empty string being mapped to itself. *)
Theorem filteredDocuments_sublist toLowerCase documents searchQuery selectedTags :
  filteredDocuments toLowerCase documents searchQuery selectedTags
  `sublist_of` documents
  /\ (toLowerCase "" = "" ->
      filteredDocuments toLowerCase documents "" [] = documents).
Proof.
  split; [apply sublist_filter|]. intros Hempty.
  unfold filteredDocuments. induction documents as [|doc documents IH]; [done|].
  rewrite filter_cons_True; [by rewrite IH|].
  unfold matchesSearch, matchesTags. rewrite Hempty. simpl.
  by destruct (toLowerCase (Document.title doc)).
Qed.

Lemma matchesTags_spec selectedTags doc :
  matchesTags selectedTags doc = true
  <-> selectedTags = [] \/ ∃ tag, tag ∈ selectedTags /\ tag ∈ Document.tags doc.
Proof.
  unfold matchesTags. rewrite orb_true_iff, bool_decide_eq_true.
  rewrite existsb_exists.
  split; intros [Hnil|(tag & Hin & Ht)].
  - left. by destruct selectedTags.
  - right. exists tag. apply list_elem_of_In in Hin.
    by apply bool_decide_eq_true in Ht.
  - left. by subst.
  - right. exists tag. split; [by apply list_elem_of_In|].
    by apply bool_decide_eq_true.
Qed.

(** The selected tags are alternatives: with none selected every match
    of the search is shown, a selection shows a part of those, and
    selecting further tags on top of a selection only adds documents. *)
Theorem filteredDocuments_tags toLowerCase documents q selectedTags selectedTags' :
  filteredDocuments toLowerCase documents q selectedTags
  ⊆ filteredDocuments toLowerCase documents q []
  /\ (selectedTags ≠ [] -> selectedTags ⊆ selectedTags' ->
      filteredDocuments toLowerCase documents q selectedTags
      ⊆ filteredDocuments toLowerCase documents q selectedTags').
Proof.
  unfold filteredDocuments. split.
  - intros doc. rewrite !list_elem_of_filter, !andb_true_iff.
    intros [[Hs _] Hin]. done.
  - intros Hne Hsub doc. rewrite !list_elem_of_filter, !andb_true_iff.
    rewrite !matchesTags_spec.
    intros [[Hs [?|(tag & Hin & Ht)]] Hd]; [done|].
    split; [|done]. split; [done|]. right. exists tag. split; [|done].
    by apply Hsub.
Qed.

End search_facts.


(** ** The upload form: tags and title *)

Section upload_facts.
Implicit Types (s t : string) (c : ascii) (tags : list string).

Lemma includes_unit c s :
  includes s (String c "") = true <-> has_unit c s.
Proof.
  unfold has_unit. induction s as [|d s IH].
  - rewrite includes_nil. simpl. split; [done | tauto].
  - rewrite includes_cons, orb_true_iff, IH. simpl.
    destruct (ascii_dec c d) as [->|Hne].
    + split; [auto|]. intros _. left. by destruct s.
    + split; [intros [?|?]; [done | by right]|].
      intros [?|?]; [by subst | by right].
Qed.

Lemma has_unit_cons c d s : has_unit c (String d s) <-> d = c \/ has_unit c s.
Proof. reflexivity. Qed.

Lemma trimStart_units c s : has_unit c (trimStart s) -> has_unit c s.
Proof.
  induction s as [|d s IH]; simpl; [done|].
  destruct (is_white_space d); [|done]. intros H. right. by apply IH.
Qed.

Lemma trimEnd_units c s : has_unit c (trimEnd s) -> has_unit c s.
Proof.
  induction s as [|d s IH]; simpl; [done|].
  destruct (trimEnd s) as [|e t] eqn:Ht.
  - destruct (is_white_space d); [done|].
    rewrite has_unit_cons. intros [?|[]]. by left.
  - rewrite !has_unit_cons. intros [?|H]; [by left|]. right. by apply IH.
Qed.

Lemma trim_units c s : has_unit c (trim s) -> has_unit c s.
Proof. unfold trim. intros H. by apply trimStart_units, trimEnd_units. Qed.

Lemma trimEnd_idemp s : trimEnd (trimEnd s) = trimEnd s.
Proof.
  induction s as [|d s IH]; simpl; [done|].
  destruct (trimEnd s) as [|e t] eqn:Ht.
  - destruct (is_white_space d) eqn:Hd; simpl; [done|]. by rewrite Hd.
  - simpl. simpl in IH. by rewrite IH.
Qed.

Lemma trimEnd_head d s :
  is_white_space d = false -> ∃ t, trimEnd (String d s) = String d t.
Proof.
  intros Hd. simpl. destruct (trimEnd s); [rewrite Hd|]; eauto.
Qed.

Lemma trimStart_head s :
  trimStart s = "" \/ ∃ d t, trimStart s = String d t /\ is_white_space d = false.
Proof.
  induction s as [|d s IH]; simpl; [by left|].
  destruct (is_white_space d) eqn:Hd; [done|]. right. eauto.
Qed.

(** Trimming what is trimmed changes nothing. *)
Lemma trim_idemp s : trim (trim s) = trim s.
Proof.
  unfold trim. destruct (trimStart_head s) as [->|(d & t & -> & Hd)]; [done|].
  destruct (trimEnd_head d t Hd) as [u Hu]. rewrite Hu.
  simpl trimStart. rewrite Hd, <- Hu. apply trimEnd_idemp.
Qed.

Lemma split_comma_nonempty s : split_comma s ≠ [].
Proof.
  destruct s as [|c s]; simpl; [done|].
  case_bool_decide; [done|]. by destruct (split_comma s).
Qed.

Lemma split_comma_units s :
  Forall (λ piece, ¬ has_unit ","%char piece) (split_comma s).
Proof.
  induction s as [|c s IH]; simpl.
  - repeat constructor. tauto.
  - case_bool_decide as Hc.
    + constructor; [unfold has_unit; simpl; tauto | done].
    + destruct (split_comma s) as [|piece pieces].
      * repeat constructor. rewrite has_unit_cons.
        unfold has_unit. simpl. tauto.
      * apply Forall_cons in IH as [Hp Hps]. constructor; [|done].
        rewrite has_unit_cons. tauto.
Qed.

(** The tags stored for an upload: none is empty, none begins or ends
    with white space, none holds a comma. *)
Theorem parse_tags_clean s :
  Forall (λ t, t ≠ "" /\ trim t = t /\ includes t "," = false) (parse_tags s).
Proof.
  unfold parse_tags. apply Forall_forall. intros t Ht.
  apply list_elem_of_filter in Ht as [Hne Ht].
  apply list_elem_of_fmap in Ht as (piece & -> & Hpiece).
  split; [done|]. split; [apply trim_idemp|].
  destruct (includes (trim piece) ",") eqn:Hinc; [|done].
  apply includes_unit, trim_units in Hinc.
  pose proof (split_comma_units s) as Hall.
  rewrite Forall_forall in Hall. by destruct (Hall piece Hpiece).
Qed.

Lemma split_comma_piece t rest :
  ¬ has_unit ","%char t ->
  split_comma (t +:+ String ","%char rest) = t :: split_comma rest.
Proof.
  induction t as [|c t IH]; intros Hno.
  - by rewrite StrFacts.app_nil_l.
  - rewrite has_unit_cons in Hno.
    rewrite StrFacts.app_cons. simpl.
    rewrite bool_decide_eq_false_2 by tauto. rewrite IH by tauto. done.
Qed.

Lemma split_comma_last t : ¬ has_unit ","%char t -> split_comma t = [t].
Proof.
  induction t as [|c t IH]; intros Hno; [done|].
  rewrite has_unit_cons in Hno. simpl.
  rewrite bool_decide_eq_false_2 by tauto. rewrite IH by tauto. done.
Qed.

Lemma trim_split_comma_space s :
  trim <$> split_comma (String " "%char s) = trim <$> split_comma s.
Proof.
  simpl. pose proof (split_comma_nonempty s).
  by destruct (split_comma s).
Qed.

(** Round trip with the way the tags are shown: tags that are clean in
    the sense above, joined with [", "] as the viewer shows them, are
    parsed back to the same tags. *)
Theorem parse_tags_join tags :
  Forall (λ t, t ≠ "" /\ trim t = t /\ includes t "," = false) tags ->
  parse_tags (Array_join ", " tags) = tags.
Proof.
  induction tags as [|t tags IH]; intros Hall; [done|].
  apply Forall_cons in Hall as [(Hne & Htrim & Hcomma) Hall].
  assert (¬ has_unit ","%char t) as Hno.
  { intros H. apply includes_unit in H. by rewrite H in Hcomma. }
  destruct tags as [|t2 tags].
  - simpl. unfold parse_tags. rewrite split_comma_last by done.
    simpl. rewrite Htrim. by rewrite filter_cons_True.
  - specialize (IH Hall). unfold parse_tags in *.
    change (Array_join ", " (t :: t2 :: tags))
      with (t +:+ String ","%char (String " "%char (Array_join ", " (t2 :: tags)))).
    rewrite split_comma_piece by done.
    rewrite fmap_cons, trim_split_comma_space, Htrim.
    rewrite filter_cons_True by done. by rewrite IH.
Qed.

Lemma extension_tail_dot s rest :
  extension_tail (s +:+ String "."%char rest) = false.
Proof.
  induction s as [|c s IH].
  - by rewrite StrFacts.app_nil_l.
  - rewrite StrFacts.app_cons. simpl. simpl in IH.
    destruct (s +:+ String "."%char rest) eqn:Hs.
    + by destruct s.
    + rewrite IH. apply andb_false_r.
Qed.

(** What the pattern accepts after the dot: something, without slash or
    dot. *)
Lemma extension_tail_spec s :
  extension_tail s = true
  <-> s ≠ "" /\ ¬ has_unit "/"%char s /\ ¬ has_unit "."%char s.
Proof.
  induction s as [|c s IH]; simpl; [split; [done | tauto]|].
  rewrite andb_true_iff, bool_decide_eq_true, !has_unit_cons.
  destruct s as [|d s].
  - unfold has_unit. simpl. split; [|tauto]. intros [[? ?] _].
    split; [done|]. split; intros [?|[]]; congruence.
  - rewrite IH. split.
    + intros [[? ?] (_ & ? & ?)]. split; [done|]. split; intros [?|?]; tauto.
    + intros (_ & H1 & H2). split; [split; intros ->; tauto|].
      split; [done|]. tauto.
Qed.

(** The title proposed for a file: a name that ends in a dot and an
    extension (one code unit or more, no slash, no dot) loses them, and
    only them. *)
Theorem strip_extension_cut base ext :
  ext ≠ "" -> includes ext "/" = false -> includes ext "." = false ->
  strip_extension (base +:+ "." +:+ ext) = base.
Proof.
  intros Hne Hslash Hdot.
  assert (extension_tail ext = true) as Htail.
  { apply extension_tail_spec. split; [done|].
    split; intros H%includes_unit; congruence. }
  induction base as [|c base IH].
  - rewrite StrFacts.app_nil_l. change ("." +:+ ext) with (String "."%char ext).
    simpl. by rewrite Htail.
  - rewrite StrFacts.app_cons. simpl. rewrite IH.
    change ("." +:+ ext) with (String "."%char ext).
    rewrite extension_tail_dot. by rewrite andb_false_r.
Qed.

(** Every other name is left as it is: one without a dot, one that ends
    in a dot, one with a slash after its last dot. *)
Theorem strip_extension_keep name :
  (∀ base ext, name = base +:+ "." +:+ ext ->
               ext = "" \/ includes ext "/" = true \/ includes ext "." = true) ->
  strip_extension name = name.
Proof.
  induction name as [|c name IH]; intros Hno; [done|]. simpl.
  destruct (bool_decide (c = "."%char) && extension_tail name) eqn:Hcut.
  - apply andb_true_iff in Hcut as [Hc Htail].
    apply bool_decide_eq_true in Hc. subst c.
    apply extension_tail_spec in Htail as (Hne & Hs & Hd).
    destruct (Hno "" name) as [?|[H|H]]; [done | done | |];
      apply includes_unit in H; tauto.
  - f_equal. apply IH. intros base ext ->.
    apply (Hno (String c base) ext). by rewrite StrFacts.app_cons.
Qed.

End upload_facts.

Lemma parse_tags_join_witness :
  parse_tags (Array_join ", " ["research"; "cell biology"; "chemistry"])
  = ["research"; "cell biology"; "chemistry"].
Proof.
  apply (parse_tags_join ["research"; "cell biology"; "chemistry"]).
  repeat first [apply Forall_nil_2 | apply Forall_cons_2];
    (split; [discriminate | split; reflexivity]).
Defined.

Lemma strip_extension_cut_witness :
  strip_extension ("archive.tar" +:+ "." +:+ "gz") = "archive.tar".
Proof.
  apply (strip_extension_cut "archive.tar" "gz");
    [discriminate | reflexivity | reflexivity].
Defined.

Example strip_extension_examples :
  strip_extension "notes.md" = "notes"
  /\ strip_extension ".bashrc" = ""
  /\ strip_extension "README" = "README"
  /\ strip_extension "draft." = "draft."
  /\ strip_extension "v1.2/notes" = "v1.2/notes".
Proof. done. Qed.

Example parse_tags_example :
  parse_tags "research, biology ,, chemistry  ," = ["research"; "biology"; "chemistry"]
  /\ parse_tags "" = [].
Proof. done. Qed.

(** ** The connections view *)

(** The badge of a connection: each type that the form offers has its
    own classes; any other name gets those of [related], unless it is a
    key of [Object.prototype], for which the lookup gives the inherited
    member and the fallback is not taken. *)
Theorem getConnectionTypeColor_cases type :
  (type ∈ connectionTypes ->
   ∃ classes, connection_colors !! type = Some classes
              /\ getConnectionTypeColor type = JSString classes)
  /\ (type ∉ connectionTypes -> type ∉ Object_prototype ->
      getConnectionTypeColor type = JSString "bg-blue-100 text-blue-700")
  /\ (type ∈ Object_prototype ->
      getConnectionTypeColor type = JSInherited type).
Proof.
  split; [|split].
  - unfold connectionTypes. rewrite !elem_of_cons, elem_of_nil.
    intros H. repeat (destruct H as [->|H]; [eexists; by vm_compute|]). done.
  - intros Hc Hp. unfold getConnectionTypeColor, Get at 1.
    assert (connection_colors !! type = None) as ->.
    { unfold connection_colors.
      rewrite !lookup_insert_ne; [apply lookup_empty | ..];
        intros <-; apply Hc; unfold connectionTypes; set_solver. }
    by rewrite bool_decide_eq_false_2 by done.
  - unfold Object_prototype. rewrite !elem_of_cons, elem_of_nil.
    intros H. repeat (destruct H as [->|H]; [by vm_compute|]). done.
Qed.

Section title_facts.
Implicit Types (documents : list Document.t) (d : Document.t) (id : string).

Lemma list_find_unique_id documents id d i x :
  NoDup (Document.id <$> documents) ->
  d ∈ documents -> Document.id d = id ->
  list_find (λ d, Document.id d = id) documents = Some (i, x) ->
  x = d.
Proof.
  intros Hnd Hin Hid Hfind.
  apply list_find_Some in Hfind as (Hx & Hxid & _).
  apply list_elem_of_lookup in Hin as [j Hj].
  assert (i = j) as ->.
  { eapply NoDup_lookup; [exact Hnd | |].
    - by rewrite list_lookup_fmap, Hx.
    - rewrite list_lookup_fmap, Hj. simpl. congruence. }
  congruence.
Qed.

(** The name shown for the document of a connection is never empty: it
    is the title of the loaded document with that id when there is one and
    its title is not empty, and [Unknown Document] when no loaded document
    has the id. *)
Theorem getDocumentTitle_cases documents id :
  getDocumentTitle documents id ≠ ""
  /\ (Forall (λ d, Document.id d ≠ id) documents ->
      getDocumentTitle documents id = "Unknown Document")
  /\ (NoDup (Document.id <$> documents) ->
      ∀ d, d ∈ documents -> Document.id d = id -> Document.title d ≠ "" ->
           getDocumentTitle documents id = Document.title d).
Proof.
  unfold getDocumentTitle. split; [|split].
  - destruct (list_find _ documents) as [[i x]|]; [|done].
    by case_bool_decide.
  - intros Hnone.
    destruct (list_find _ documents) as [[i x]|] eqn:Hfind; [|done].
    apply list_find_Some in Hfind as (Hx & Hxid & _).
    rewrite Forall_forall in Hnone.
    destruct (Hnone x); [by eapply list_elem_of_lookup_2 | done].
  - intros Hnd d Hin Hid Htitle.
    destruct (list_find _ documents) as [[i x]|] eqn:Hfind.
    + rewrite (list_find_unique_id documents id d i x) by done.
      by rewrite bool_decide_eq_false_2.
    + apply list_find_None in Hfind. rewrite Forall_forall in Hfind.
      by destruct (Hfind d Hin).
Qed.

End title_facts.

Lemma has_unit_middle c base ext :
  has_unit c (base +:+ String c ext).
Proof.
  induction base as [|d base IH].
  - by left.
  - rewrite StrFacts.app_cons. by right.
Qed.

Lemma strip_extension_keep_witness : strip_extension "README" = "README".
Proof.
  apply (strip_extension_keep "README").
  intros base ext H. exfalso.
  pose proof (has_unit_middle "."%char base ext) as Hdot.
  change (String "."%char ext) with ("." +:+ ext) in Hdot.
  rewrite <- H in Hdot.
  apply (bool_decide_eq_false_1 (In "."%char (list_ascii_of_string "README")));
    [reflexivity | exact Hdot].
Defined.

(** On text in small ASCII letters [toLowerCase] changes nothing: there
    it is the identity. *)
Lemma filteredDocuments_sublist_witness :
  filteredDocuments (λ s, s)
    [Document.mk "d1" "fox notes" "the quick brown fox" ["bio"];
     Document.mk "d2" "chem" "acids and bases" []] "fox" []
  `sublist_of`
    [Document.mk "d1" "fox notes" "the quick brown fox" ["bio"];
     Document.mk "d2" "chem" "acids and bases" []]
  /\ filteredDocuments (λ s, s)
       [Document.mk "d1" "fox notes" "the quick brown fox" ["bio"];
        Document.mk "d2" "chem" "acids and bases" []] "" []
     = [Document.mk "d1" "fox notes" "the quick brown fox" ["bio"];
        Document.mk "d2" "chem" "acids and bases" []].
Proof.
  destruct (filteredDocuments_sublist (λ s, s)
              [Document.mk "d1" "fox notes" "the quick brown fox" ["bio"];
               Document.mk "d2" "chem" "acids and bases" []] "fox" [])
    as [Hsub Hall].
  split; [exact Hsub | exact (Hall eq_refl)].
Defined.

Example filteredDocuments_example :
  filteredDocuments (λ s, s)
    [Document.mk "d1" "fox notes" "the quick brown fox" ["bio"];
     Document.mk "d2" "chem" "acids and bases" ["lab"];
     Document.mk "d3" "zoo" "a fox and a hare" ["lab"]] "fox" ["lab"; "bio"]
  = [Document.mk "d1" "fox notes" "the quick brown fox" ["bio"];
     Document.mk "d3" "zoo" "a fox and a hare" ["lab"]].
Proof. reflexivity. Qed.
